(** * timetracker: slugs, the category/task object model and its traversals

    A shallow embedding of [timetracker/slugify.py], [timetracker/models.py]
    and the object-deleting command of [timetracker/scripts/tracker.py].

    Python strings are modelled by [string] (a sequence of bytes, the UTF-8
    encoding of the text).  The slug functions only distinguish the ASCII
    letters and digits from everything else, and every byte of the encoding
    of a non-ASCII character is itself outside these classes, so a run of
    such characters and the run of their bytes are replaced alike. *)

From Stdlib Require Import ZArith Ascii String List Lia Permutation.
From stdpp Require Import base option list strings pretty sorting.

(** ** slugify.py *)

Module Slugify.

(** The character class [A-Za-z0-9] of [SLUGIFY_RE]. *)
Definition is_alnum (c : ascii) : bool :=
  let n := nat_of_ascii c in
  ((65 <=? n) && (n <=? 90) || (97 <=? n) && (n <=? 122)
   || (48 <=? n) && (n <=? 57))%nat.

Definition dash : ascii := "-"%char.

(** [re.sub] with a pattern [([^...]+)] and the replacement ["-"]: scanning
    from the left, every maximal run of characters outside the class [keep]
    is replaced by one dash.  [in_run] tells that the previous character was
    already part of the current match. *)
Fixpoint re_sub_from (keep : ascii → bool) (in_run : bool) (s : string)
    : string :=
  match s with
  | EmptyString => EmptyString
  | String c s' =>
      if keep c then String c (re_sub_from keep false s')
      else if in_run then re_sub_from keep true s'
      else String dash (re_sub_from keep true s')
  end.

(** [SLUGIFY_RE.sub("-", s)] with [SLUGIFY_RE = re.compile(r"([^A-Za-z0-9]+)")] *)
Definition SLUGIFY_RE_sub (s : string) : string :=
  re_sub_from is_alnum false s.

(** [str.lower] on one character; it is only ever applied to the output of
    the substitution, which is ASCII. *)
Definition lower_char (c : ascii) : ascii :=
  let n := nat_of_ascii c in
  if ((65 <=? n) && (n <=? 90))%nat then ascii_of_nat (n + 32) else c.

Fixpoint lower (s : string) : string :=
  match s with
  | EmptyString => EmptyString
  | String c s' => String (lower_char c) (lower s')
  end.

(** [str.strip('-')]: drop the dashes at both ends. *)
Fixpoint lstrip (s : string) : string :=
  match s with
  | EmptyString => EmptyString
  | String c s' => if Ascii.eqb c dash then lstrip s' else s
  end.

Fixpoint rstrip (s : string) : string :=
  match s with
  | EmptyString => EmptyString
  | String c s' =>
      match rstrip s' with
      | EmptyString => if Ascii.eqb c dash then EmptyString else String c EmptyString
      | r => String c r
      end
  end.

Definition strip (s : string) : string := rstrip (lstrip s).

(** [def slugify(s): return SLUGIFY_RE.sub("-", s).lower().strip('-')] *)
Definition slugify (s : string) : string :=
  strip (lower (SLUGIFY_RE_sub s)).

(** The f-string [f"{prefix}-{count}"]. *)
Definition suffixed (prefix : string) (count : nat) : string :=
  prefix +:+ "-" +:+ pretty count.

(** The [while slug in used] loop of [slugify_unique], with the loop state
    [(count, slug)]; [None] when the fuel runs out before the loop exits. *)
Fixpoint slugify_unique_loop (fuel : nat) (prefix : string) (count : nat)
    (slug : string) (used : list string) : option string :=
  match fuel with
  | O => None
  | S fuel' =>
      if bool_decide (slug ∈ used)
      then slugify_unique_loop fuel' prefix (S count)
             (suffixed prefix (S count)) used
      else Some slug
  end.

(** [slugify_unique(s, used)]; the loop is run with one more unit of fuel
    than [used] has entries, which [slugify_unique_loop_fuel] shows to be
    enough (and any larger amount gives the same slug). *)
Definition slugify_unique (s : string) (used : list string) : string :=
  let prefix := slugify s in
  default prefix (slugify_unique_loop (S (length used)) prefix 1 prefix used).

End Slugify.

(** ** The slug generator as the specification words it *)

Module SlugSpec.
Import Slugify.

(** "characters that are not ASCII letters, digits, or dash" are the ones
    replaced, so the dash belongs to the class that is kept. *)
Definition is_alnum_or_dash (c : ascii) : bool :=
  is_alnum c || Ascii.eqb c dash.

(** "replace every maximal run of characters that are not ASCII letters,
    digits, or dash with a single dash; lowercase the result; strip
    leading/trailing dashes." *)
Definition normalize (text : string) : string :=
  strip (lower (re_sub_from is_alnum_or_dash false text)).

(** "probe base-2, base-3, ... incrementing a counter starting at 2": the
    candidates in the order they are tried, the base itself counting as the
    first. *)
Definition candidate (base : string) (n : nat) : string :=
  if bool_decide (n ≤ 1) then base else suffixed base n.

End SlugSpec.

(** ** The shape of a slug *)

Module SlugShape.
Import Slugify.

(** [a-z0-9] *)
Definition is_slug_alnum (c : ascii) : bool :=
  let n := nat_of_ascii c in
  ((97 <=? n) && (n <=? 122) || (48 <=? n) && (n <=? 57))%nat.

Definition starts_with_dash (s : string) : bool :=
  match s with
  | String c _ => Ascii.eqb c dash
  | EmptyString => false
  end.

Fixpoint ends_with_dash (s : string) : bool :=
  match s with
  | EmptyString => false
  | String c EmptyString => Ascii.eqb c dash
  | String _ s' => ends_with_dash s'
  end.

(** Every character is in the class [P] or is a dash, and no dash is
    followed by another one. *)
Fixpoint collapsed (P : ascii → bool) (s : string) : bool :=
  match s with
  | EmptyString => true
  | String c s' =>
      (if Ascii.eqb c dash then negb (starts_with_dash s') else P c)
      && collapsed P s'
  end.

(** Lowercase letters, digits and single dashes, the dashes strictly inside
    the string. *)
Definition is_slug (s : string) : bool :=
  collapsed is_slug_alnum s && negb (starts_with_dash s)
  && negb (ends_with_dash s).

End SlugShape.

(** ** Two more classes of strings *)

Module SlugText.
Import Slugify SlugShape.

(** Some character of the text is an ASCII letter or digit. *)
Fixpoint has_alnum (s : string) : bool :=
  match s with
  | EmptyString => false
  | String c s' => is_alnum c || has_alnum s'
  end.

(** Every character is a lowercase letter or a digit. *)
Fixpoint all_slug_alnum (s : string) : bool :=
  match s with
  | EmptyString => true
  | String c s' => is_slug_alnum c && all_slug_alnum s'
  end.

End SlugText.

(** ** models.py *)

Module Models.
Import Slugify.

(** *** Python values and exceptions *)

(** The values a caller may pass for [mins]. *)
Inductive pyval :=
| PyNone
| PyInt (z : Z)
| PyBool (b : bool)
| PyFloat (mantissa exponent : Z)
| PyStr (s : string).

Definition is_None (v : pyval) : bool :=
  match v with PyNone => true | _ => false end.

(** [isinstance(v, int)]; [bool] is a subclass of [int]. *)
Definition isinstance_int (v : pyval) : bool :=
  match v with PyInt _ | PyBool _ => true | _ => false end.

(** The value kept in [Task.mins] once the constructor has accepted it:
    [None] or an integer ([True] and [False] are the integers 1 and 0 in
    every arithmetic and truth-value context used below). *)
Definition stored_mins (v : pyval) : option Z :=
  match v with
  | PyInt z => Some z
  | PyBool b => Some (if b then 1 else 0)%Z
  | _ => None
  end.

Inductive exn :=
| KeyError (msg : string)
| ValueError (msg : string)
| TypeError (msg : string)
| AttributeError (msg : string)
| Exception (msg : string).

(** *** Objects and the heap *)

(** Objects are referred to by their identity, a location in the heap;
    [__parent__] and the values of a mapping are such references. *)
Abbreviation loc := nat (only parsing).

(** The [dict] inside a [PersistentMapping], in insertion order. *)
Abbreviation dict := (list (string * loc)) (only parsing).

Record Category := mkCategory {
  cat_parent : option loc;
  cat_id : string;
  cat_title : string;
  cat_description : string;
  cat_data : dict
}.

Record Task := mkTask {
  task_parent : option loc;
  task_id : string;
  task_title : string;
  task_description : string;
  task_mins : option Z
}.

(** [RootObj] is the bare mapping returned by [db.root()], which is not a
    [Category] but may be the [__parent__] of one. *)
Inductive obj :=
| RootObj (data : dict)
| CategoryObj (c : Category)
| TaskObj (t : Task).

Abbreviation heap := (list obj) (only parsing).

Definition keys (d : dict) : list string := d.*1.
Definition values (d : dict) : list loc := d.*2.

(** [k in d] *)
Definition contains (d : dict) (k : string) : bool := bool_decide (k ∈ keys d).

(** [d[k]] *)
Fixpoint getitem (d : dict) (k : string) : option loc :=
  match d with
  | [] => None
  | (k', v) :: d' => if String.eqb k' k then Some v else getitem d' k
  end.

(** [d[k] = v]: an existing key keeps its place, a new one goes last. *)
Fixpoint setitem (d : dict) (k : string) (v : loc) : dict :=
  match d with
  | [] => [(k, v)]
  | (k', v') :: d' =>
      if String.eqb k' k then (k, v) :: d' else (k', v') :: setitem d' k v
  end.

(** [del d[k]]; [None] stands for the [KeyError] of a missing key. *)
Fixpoint delitem (d : dict) (k : string) : option dict :=
  match d with
  | [] => None
  | (k', v') :: d' =>
      if String.eqb k' k then Some d' else cons (k', v') <$> delitem d' k
  end.

(** *** Computations: a heap is threaded through, an exception ends them *)

Inductive result (A : Type) :=
| Ok (a : A)
| Raise (e : exn).
Arguments Ok {A} a.
Arguments Raise {A} e.

Definition M (A : Type) : Type := heap → result A * heap.

Definition ret {A} (a : A) : M A := λ h, (Ok a, h).
Definition raise {A} (e : exn) : M A := λ h, (Raise e, h).
Definition bind {A B} (m : M A) (k : A → M B) : M B :=
  λ h, match m h with
       | (Ok a, h') => k a h'
       | (Raise e, h') => (Raise e, h')
       end.

Declare Scope py_scope.
Delimit Scope py_scope with py.
Notation "x <- m ;; k" := (bind m (λ x, k))
  (at level 100, m at next level, right associativity) : py_scope.
Notation "m ;;; k" := (bind m (λ _, k))
  (at level 100, right associativity) : py_scope.
Local Open Scope py_scope.

(** Reading an object.  Every reference held by a Python program denotes an
    object; a location outside the heap has no counterpart and is given an
    [AttributeError] like any object of the wrong class. *)
Definition get_obj (l : loc) : M obj :=
  λ h, match h !! l with
       | Some o => (Ok o, h)
       | None => (Raise (AttributeError "no such object"), h)
       end.

Definition put_obj (l : loc) (o : obj) : M unit :=
  λ h, (Ok tt, <[l := o]> h).

(** Object creation: the new object gets a fresh identity. *)
Definition alloc (o : obj) : M loc :=
  λ h, (Ok (length h), h ++ [o]).

Definition get_category (self : loc) : M Category :=
  o <- get_obj self;;
  match o with
  | CategoryObj c => ret c
  | _ => raise (AttributeError "not a Category")
  end.

Definition get_task (self : loc) : M Task :=
  o <- get_obj self;;
  match o with
  | TaskObj t => ret t
  | _ => raise (AttributeError "not a Task")
  end.

(** *** class Category *)

Definition set_data (c : Category) (d : dict) : Category :=
  mkCategory (cat_parent c) (cat_id c) (cat_title c) (cat_description c) d.

(** [Category.__init__] *)
Definition Category_init (id title description : string)
    (parent : option loc) : M loc :=
  alloc (CategoryObj (mkCategory parent id title description [])).

(** The spec's [InvalidDuration]. *)
Definition ValueError_mins : exn :=
  ValueError "Task mins must be None or an integer".

(** [Task.__init__] *)
Definition Task_init (id title description : string) (mins : pyval)
    (parent : option loc) : M loc :=
  if negb (is_None mins) && negb (isinstance_int mins)
  then raise ValueError_mins
  else alloc (TaskObj (mkTask parent id title description (stored_mins mins))).

(** The spec's [DuplicateId]. *)
Definition KeyError_duplicate (id : string) : exn :=
  KeyError ("Key '" +:+ id +:+ "' already in category").

(** The id resolution shared by [add_task] and [add_category]:
<<
    if id is not None:
        if id in self: raise KeyError(...)
    else:
        id = slugify_unique(title, self.keys())
>> *)
Definition resolve_id (self : loc) (title : string) (id : option string)
    : M string :=
  c <- get_category self;;
  match id with
  | Some i =>
      if contains (cat_data c) i then raise (KeyError_duplicate i) else ret i
  | None => ret (slugify_unique title (keys (cat_data c)))
  end.

(** [self[id] = v] *)
Definition Category_setitem (self : loc) (k : string) (v : loc) : M unit :=
  c <- get_category self;;
  put_obj self (CategoryObj (set_data c (setitem (cat_data c) k v))).

Definition add_task (self : loc) (title description : string)
    (id : option string) (mins : pyval) : M loc :=
  id' <- resolve_id self title id;;
  task <- Task_init id' title description mins (Some self);;
  Category_setitem self id' task;;;
  ret task.

Definition add_category (self : loc) (title description : string)
    (id : option string) : M loc :=
  id' <- resolve_id self title id;;
  cat <- Category_init id' title description (Some self);;
  Category_setitem self id' cat;;;
  ret cat.

(** The exception of [raise Exception("Cannot delete category without
    parent")] and its [Task] counterpart: the spec's [NoParent]. *)
Definition NoParent_category : exn :=
  Exception "Cannot delete category without parent".
Definition NoParent_task : exn :=
  Exception "Cannot delete task without parent".

(** The spec's [NotEmpty]. *)
Definition NotEmpty (id : string) : exn :=
  Exception ("Cannot delete Category " +:+ id +:+ " without deleting children").

(** [del self.__parent__[id]]: the parent is the root mapping or a
    category; anything else does not support item deletion. *)
Definition parent_delitem (parent : loc) (id : string) : M unit :=
  o <- get_obj parent;;
  match o with
  | RootObj d =>
      match delitem d id with
      | Some d' => put_obj parent (RootObj d')
      | None => raise (KeyError id)
      end
  | CategoryObj c =>
      match delitem (cat_data c) id with
      | Some d' => put_obj parent (CategoryObj (set_data c d'))
      | None => raise (KeyError id)
      end
  | TaskObj _ => raise (TypeError "'Task' object doesn't support item deletion")
  end.

(** [Category.delete(self, recurse=False)] *)
Definition Category_delete (self : loc) (recurse : bool) : M unit :=
  c <- get_category self;;
  match cat_parent c with
  | None => raise NoParent_category
  | Some parent =>
      if negb (bool_decide (keys (cat_data c) = [])) && negb recurse
      then raise (NotEmpty (cat_id c))
      else parent_delitem parent (cat_id c)
  end.

(** [Task.delete(self)] *)
Definition Task_delete (self : loc) : M unit :=
  t <- get_task self;;
  match task_parent t with
  | None => raise NoParent_task
  | Some parent => parent_delitem parent (task_id t)
  end.

(** *** Listings *)

(** The order of [sorted(list(self.items()))].  The items are [(key, value)]
    tuples and the keys of a dict are pairwise different, so the keys alone
    decide every comparison; strings compare by code point, which for UTF-8
    is the order of the byte sequences. *)
Definition item_le (a b : string * loc) : Prop := String.le a.1 b.1.

#[global] Instance item_le_dec : RelDecision item_le.
Proof. intros a b. unfold item_le. apply _. Defined.

(** The builtin [sorted] is a stable merge sort, as [merge_sort] is; on the
    items of a dict the result is in any case the one sorted arrangement
    ([sorted_order_independent]). *)
Definition sorted (items : dict) : dict := merge_sort item_le items.

(** What one item contributes to [Category.categories]: the child itself if
    it is a category, followed by its own listing when recursing.  [rec] is
    the recursive call [v.categories(True)]. *)
Definition categories_item (h : heap) (rec : loc → option (list loc))
    (recurse : bool) (kv : string * loc) : option (list loc) :=
  match h !! kv.2 with
  | Some (CategoryObj _) =>
      if recurse then cons kv.2 <$> rec kv.2 else Some [kv.2]
  | Some _ => Some []
  | None => None
  end.

(** [list(self.categories(recurse))] as the list of the objects yielded.
    The recursion follows references through the heap and is bounded by
    [fuel]; [None] when the fuel runs out (or on a dangling reference). *)
Fixpoint categories (fuel : nat) (h : heap) (self : loc) (recurse : bool)
    : option (list loc) :=
  match fuel with
  | O => None
  | S fuel' =>
      match h !! self with
      | Some (CategoryObj c) =>
          List.concat (A:=loc) <$> mapM
            (categories_item h (λ v, categories fuel' h v true) recurse)
            (sorted (cat_data c))
      | _ => None
      end
  end.

(** What one item contributes to [Category.tasks]. *)
Definition tasks_item (h : heap) (rec : loc → option (list loc))
    (recurse : bool) (kv : string * loc) : option (list loc) :=
  match h !! kv.2 with
  | Some (TaskObj _) => Some [kv.2]
  | Some (CategoryObj _) => if recurse then rec kv.2 else Some []
  | Some (RootObj _) => Some []
  | None => None
  end.

(** [list(self.tasks(recurse))] *)
Fixpoint tasks (fuel : nat) (h : heap) (self : loc) (recurse : bool)
    : option (list loc) :=
  match fuel with
  | O => None
  | S fuel' =>
      match h !! self with
      | Some (CategoryObj c) =>
          List.concat (A:=loc) <$> mapM
            (tasks_item h (λ v, tasks fuel' h v true) recurse)
            (sorted (cat_data c))
      | _ => None
      end
  end.

(** [t.mins or 0]: [None] and [0] are both false. *)
Definition mins_or_0 (h : heap) (t : loc) : Z :=
  match h !! t with
  | Some (TaskObj t) =>
      match task_mins t with
      | Some z => if (z =? 0)%Z then 0%Z else z
      | None => 0%Z
      end
  | _ => 0%Z
  end.

(** The builtin [sum]: a left fold from 0. *)
Definition sum (l : list Z) : Z := fold_left Z.add l 0%Z.

(** [Category.total_mins(self, recurse)] *)
Definition total_mins (fuel : nat) (h : heap) (self : loc) (recurse : bool)
    : option Z :=
  ts ← tasks fuel h self recurse; Some (sum (mins_or_0 h <$> ts)).

End Models.

(** ** scripts/tracker.py: path traversal and [rm] *)

Module Tracker.
Import Models.
Local Open Scope py_scope.

(** [path_string.split(".")] *)
Fixpoint split_dots (s : string) : list string :=
  match s with
  | EmptyString => [EmptyString]
  | String c s' =>
      if Ascii.eqb c "."%char then EmptyString :: split_dots s'
      else match split_dots s' with
           | w :: ws => String c w :: ws
           | [] => [String c EmptyString]
           end
  end.

(** [a[b]] on an object of the tree. *)
Definition subscript (a : loc) (b : string) : M loc :=
  o <- get_obj a;;
  match o with
  | RootObj d | CategoryObj {| cat_data := d |} =>
      match getitem d b with
      | Some v => ret v
      | None => raise (KeyError b)
      end
  | TaskObj _ => raise (TypeError "'Task' object is not subscriptable")
  end.

(** [reduce(lambda a, b: a[b], path, root)] *)
Fixpoint reduce_subscript (path : list string) (a : loc) : M loc :=
  match path with
  | [] => ret a
  | b :: path' => a' <- subscript a b;; reduce_subscript path' a'
  end.

(** [TrackerCmd.traverse] *)
Definition traverse (root : loc) (path_string : string) : M loc :=
  reduce_subscript
    (filter (λ p, p ≠ EmptyString) (split_dots path_string)) root.

(** The keyword parameters the two [delete] methods declare. *)
Definition Category_delete_params : list string := ["recurse"].
Definition Task_delete_params : list string := [].

Definition TypeError_unexpected_keyword (kw : string) : exn :=
  TypeError ("delete() got an unexpected keyword argument '" +:+ kw +:+ "'").

(** The call [obj.delete(recurse=recurse)]: the method is looked up in the
    class of [obj], and a keyword the method does not declare is a
    [TypeError] raised before its body runs. *)
Definition call_delete (obj : loc) (recurse : bool) : M unit :=
  o <- get_obj obj;;
  match o with
  | CategoryObj _ =>
      if bool_decide ("recurse" ∈ Category_delete_params)
      then Category_delete obj recurse
      else raise (TypeError_unexpected_keyword "recurse")
  | TaskObj _ =>
      if bool_decide ("recurse" ∈ Task_delete_params)
      then Task_delete obj
      else raise (TypeError_unexpected_keyword "recurse")
  | RootObj _ => raise (AttributeError "no attribute 'delete'")
  end.

(** [TrackerCmd.do_rm(arg, recurse)]; [root] is [self.root]. *)
Definition do_rm (root : loc) (arg : string) (recurse : bool) : M unit :=
  obj <- traverse root arg;;
  if bool_decide (obj = root) then raise (ValueError "Cannot delete root")
  else call_delete obj recurse.

End Tracker.

(** ** Trees in the heap *)

Module Trees.
Import Models.

Definition obj_id (o : obj) : option string :=
  match o with
  | CategoryObj c => Some (cat_id c)
  | TaskObj t => Some (task_id t)
  | RootObj _ => None
  end.

Definition obj_parent (o : obj) : option loc :=
  match o with
  | CategoryObj c => cat_parent c
  | TaskObj t => task_parent t
  | RootObj _ => None
  end.

(** The [id] attribute of the object at [v] (of a category or a task). *)
Definition id_of (h : heap) (v : loc) : option string := h !! v ≫= obj_id.

Definition is_category (h : heap) (v : loc) : bool :=
  match h !! v with Some (CategoryObj _) => true | _ => false end.

Definition is_task (h : heap) (v : loc) : bool :=
  match h !! v with Some (TaskObj _) => true | _ => false end.

(** The item [(k, v)] of the mapping of [l] is a child as [add_task] and
    [add_category] leave it: a category or task whose [id] is the key and
    whose [__parent__] is [l]. *)
Definition owns (h : heap) (l : loc) (kv : string * loc) : Prop :=
  ∃ o, h !! kv.2 = Some o ∧ obj_id o = Some kv.1 ∧ obj_parent o = Some l.

(** The mapping of a category: a dict (no key twice) of owned children. *)
Definition category_wf (h : heap) (l : loc) (c : Category) : Prop :=
  NoDup (keys (cat_data c)) ∧ Forall (owns h l) (cat_data c).

Definition siblings_wf (h : heap) (l : loc) : Prop :=
  ∃ c, h !! l = Some (CategoryObj c) ∧ category_wf h l c.

(** "No two children of the same parent share an id". *)
Definition sibling_ids_unique (h : heap) (l : loc) : Prop :=
  ∃ c, h !! l = Some (CategoryObj c)
       ∧ NoDup (id_of h <$> values (cat_data c)).

(** The children of a node: the values of a category's mapping. *)
Definition children (h : heap) (l : loc) : list loc :=
  match h !! l with
  | Some (CategoryObj c) => values (cat_data c)
  | _ => []
  end.

(** [w] lies under [l], at any depth. *)
Inductive reachable (h : heap) : loc → loc → Prop :=
| reachable_child l v : v ∈ children h l → reachable h l v
| reachable_step l v w :
    v ∈ children h l → reachable h v w → reachable h l w.

(** [t] is [n] levels below [l]. *)
Fixpoint reach_n (h : heap) (n : nat) (l t : loc) : Prop :=
  match n with
  | O => t = l
  | S n' => ∃ v, v ∈ children h l ∧ reach_n h n' v t
  end.

(** Following [__parent__] upwards [n] times. *)
Fixpoint ancestor (h : heap) (n : nat) (t : loc) : option loc :=
  match n with
  | O => Some t
  | S n' => ancestor h n' t ≫= λ x, h !! x ≫= obj_parent
  end.

(** The nodes under [l] form a tree of well-formed categories and tasks of
    depth at most [d]. *)
Inductive tree_under (h : heap) : nat → loc → Prop :=
| tree_task d l t : h !! l = Some (TaskObj t) → tree_under h d l
| tree_category d l c :
    h !! l = Some (CategoryObj c) →
    category_wf h l c →
    (∀ v, v ∈ values (cat_data c) → tree_under h d v) →
    tree_under h (S d) l.

(** The object at [a] has a smaller id than the one at [b]. *)
Definition id_lt (h : heap) (a b : loc) : Prop :=
  ∃ ka kb, id_of h a = Some ka ∧ id_of h b = Some kb ∧ String.ltb ka kb = true.

(** "[mins], treating unset as 0" *)
Definition mins_of (h : heap) (t : loc) : Z :=
  match h !! t with
  | Some (TaskObj t) => default 0%Z (task_mins t)
  | _ => 0%Z
  end.

(** "the sum of [mins] (treating unset as 0) over" the tasks [ts] *)
Definition sum_mins (h : heap) (ts : list loc) : Z :=
  foldr Z.add 0%Z (mins_of h <$> ts).

(** The heap after a successful [add_task] or [add_category] on the
    category [c] at [self]: the new object [o] is allocated and stored in
    the mapping under [id]. *)
Definition after_add (h : heap) (self : loc) (c : Category) (id : string)
    (o : obj) : heap :=
  <[self := CategoryObj (set_data c (setitem (cat_data c) id (length h)))]>
    (h ++ [o]).
Arguments after_add : simpl never.

(** The id [add_task] and [add_category] settle on when they do not raise. *)
Definition resolved_id (c : Category) (title : string) (id : option string)
    : string :=
  match id with
  | Some i => i
  | None => Slugify.slugify_unique title (keys (cat_data c))
  end.

(** A call of [add_category] or [add_task] that passes no explicit id. *)
Inductive call :=
| AddCategory (title description : string)
| AddTask (title description : string) (mins : pyval).

Definition run_call (self : loc) (c : call) : M loc :=
  match c with
  | AddCategory title description => add_category self title description None
  | AddTask title description mins => add_task self title description None mins
  end.

(** The heap after a sequence of calls on [self]; a call that raises leaves
    the heap as it was at that point and the next call goes on from there. *)
Fixpoint run_calls (self : loc) (calls : list call) (h : heap) : heap :=
  match calls with
  | [] => h
  | c :: calls' => run_calls self calls' (run_call self c h).2
  end.

(** "a non-negative integer" *)
Definition is_nonneg_int (v : pyval) : bool :=
  match v with
  | PyInt z => (0 <=? z)%Z
  | PyBool _ => true
  | _ => false
  end.

End Trees.

(** ** The scenario of the specification *)

Module Scenario.
Import Models.

(** The root mapping with the category [work], as [do_addcat] leaves them. *)
Definition start : heap :=
  [ RootObj [("work", 1)];
    CategoryObj (mkCategory (Some 0) "work" "Work" "" []) ].

(** [root → work → projects → design (90 minutes)] *)
Definition tree : heap :=
  [ RootObj [("work", 1)];
    CategoryObj (mkCategory (Some 0) "work" "Work" "" [("projects", 2)]);
    CategoryObj (mkCategory (Some 1) "projects" "Projects" "" [("design", 3)]);
    TaskObj (mkTask (Some 2) "design" "Design" "" (Some 90%Z)) ].

(** A category whose children were inserted out of order, one of them with
    an unset duration. *)
Definition unordered : heap :=
  [ RootObj [("box", 1)];
    CategoryObj (mkCategory (Some 0) "box" "Box" ""
                   [("b", 2); ("c", 3); ("a", 4); ("d", 5)]);
    TaskObj (mkTask (Some 1) "b" "B" "" (Some 20%Z));
    CategoryObj (mkCategory (Some 1) "c" "C" "" []);
    CategoryObj (mkCategory (Some 1) "a" "A" "" [("z", 6)]);
    TaskObj (mkTask (Some 1) "d" "D" "" None);
    TaskObj (mkTask (Some 4) "z" "Z" "" (Some 5%Z)) ].

End Scenario.

(** ** scripts/tracker.py: the commands that change the tree

    The texts a command reads with [input()] are its arguments here, in the
    order they are asked for; what a command prints is left out. *)

Module Commands.
Import Slugify Models Tracker.
Local Open Scope py_scope.

(** [TrackerCmd.do_rrm] *)
Definition do_rrm (root : loc) (arg : string) : M unit := do_rm root arg true.

(** [parent.keys()]: the root mapping and categories are mappings, a task
    has no such method. *)
Definition mapping_keys (l : loc) : M (list string) :=
  o <- get_obj l;;
  match o with
  | RootObj d => ret (keys d)
  | CategoryObj c => ret (keys (cat_data c))
  | TaskObj _ => raise (AttributeError "'Task' object has no attribute 'keys'")
  end.

(** [mapping[k] = v], the plain item assignment of a [PersistentMapping]. *)
Definition mapping_setitem (l : loc) (k : string) (v : loc) : M unit :=
  o <- get_obj l;;
  match o with
  | RootObj d => put_obj l (RootObj (setitem d k v))
  | CategoryObj c => put_obj l (CategoryObj (set_data c (setitem (cat_data c) k v)))
  | TaskObj _ =>
      raise (TypeError "'Task' object does not support item assignment")
  end.

(** [new_id or id]: the empty string is false. *)
Definition or_default (new_id id : string) : string :=
  if String.eqb new_id EmptyString then id else new_id.

(** [TrackerCmd.do_addcat]; [title], [new_id] and [description] are the
    three texts read. *)
Definition do_addcat (root : loc) (arg title new_id description : string)
    : M loc :=
  parent <- traverse root arg;;
  used <- mapping_keys parent;;
  let id := or_default new_id (slugify_unique title used) in
  if bool_decide (parent = root)
  then new <- Category_init id title description (Some root);;
       mapping_setitem root id new;;;
       ret new
  else add_category parent title description (Some id).

(** Attribute assignment.  A mapping that is not a category has no field
    of that name in this model, and none of the modelled code reads one. *)
Definition set_title (l : loc) (title : string) : M unit :=
  o <- get_obj l;;
  match o with
  | RootObj _ => ret tt
  | CategoryObj c =>
      put_obj l (CategoryObj (mkCategory (cat_parent c) (cat_id c) title
                                (cat_description c) (cat_data c)))
  | TaskObj t =>
      put_obj l (TaskObj (mkTask (task_parent t) (task_id t) title
                            (task_description t) (task_mins t)))
  end.

Definition set_description (l : loc) (description : string) : M unit :=
  o <- get_obj l;;
  match o with
  | RootObj _ => ret tt
  | CategoryObj c =>
      put_obj l (CategoryObj (mkCategory (cat_parent c) (cat_id c)
                                (cat_title c) description (cat_data c)))
  | TaskObj t =>
      put_obj l (TaskObj (mkTask (task_parent t) (task_id t) (task_title t)
                            description (task_mins t)))
  end.

Definition set_mins (l : loc) (mins : option Z) : M unit :=
  o <- get_obj l;;
  match o with
  | TaskObj t =>
      put_obj l (TaskObj (mkTask (task_parent t) (task_id t) (task_title t)
                            (task_description t) mins))
  | _ => ret tt
  end.

Section WithInt.

(** The builtin [int] on a string: the integer it reads, or the exception
    it raises.  The commands are modelled for whatever it does. *)
Variable py_int : string → result Z.

Definition lift_result {A} (r : result A) : M A := λ h, (r, h).

(** [int(mins) if mins else None] *)
Definition read_mins (mins : string) : M (option Z) :=
  if String.eqb mins EmptyString then ret None
  else z <- lift_result (py_int mins);; ret (Some z).

Definition mins_value (mins : option Z) : pyval :=
  match mins with
  | Some z => PyInt z
  | None => PyNone
  end.

Definition ValueError_not_category : exn :=
  ValueError "Can only add tasks to categories".

(** [TrackerCmd.do_addtask]; [title], [new_id], [description] and [mins]
    are the four texts read. *)
Definition do_addtask (root : loc) (arg title new_id description mins : string)
    : M loc :=
  parent <- traverse root arg;;
  o <- get_obj parent;;
  match o with
  | CategoryObj c =>
      let id := or_default new_id (slugify_unique title (keys (cat_data c))) in
      m <- read_mins mins;;
      add_task parent title description (Some id) (mins_value m)
  | _ => raise ValueError_not_category
  end.

Definition Exception_edit_root : exn := Exception "Cannot edit root".

(** [TrackerCmd.do_edit]; [title], [description] and, for a task, [mins]
    are the texts read. *)
Definition do_edit (root : loc) (arg title description mins : string)
    : M unit :=
  obj <- traverse root arg;;
  if bool_decide (obj = root) then raise Exception_edit_root
  else
    set_title obj title;;;
    set_description obj description;;;
    o <- get_obj obj;;
    match o with
    | TaskObj _ => m <- read_mins mins;; set_mins obj m
    | _ => ret tt
    end.

End WithInt.

End Commands.

(** ** What an object is in the tree, apart from its texts and duration *)

Module Frames.
Import Models Trees.

Definition mapping_data (o : obj) : option (list (string * nat)) :=
  match o with
  | RootObj d => Some d
  | CategoryObj c => Some (cat_data c)
  | TaskObj _ => None
  end.

(** The mapping held by the object at [l], if it is one. *)
Definition data_of (h : heap) (l : loc) : option (list (string * nat)) :=
  h !! l ≫= mapping_data.

(** Parent, id and children of an object. *)
Definition structure (o : obj)
    : option nat * option string * option (list (string * nat)) :=
  (obj_parent o, obj_id o, mapping_data o).

(** The dict without the key [k]. *)
Definition without (k : string) (d : list (string * nat))
    : list (string * nat) :=
  filter (λ kv, kv.1 ≠ k) d.

(** The object with its mapping replaced (a task has none). *)
Definition with_data (o : obj) (d : list (string * nat)) : obj :=
  match o with
  | RootObj _ => RootObj d
  | CategoryObj c => CategoryObj (set_data c d)
  | TaskObj t => TaskObj t
  end.

(** Two heaps with the same objects at the same places, up to titles,
    descriptions and durations. *)
Definition same_structure (h h' : heap) : Prop :=
  ∀ l, structure <$> h' !! l = structure <$> h !! l.

(** What the child [v] adds to the recursive total of its parent: its
    duration if it is a task, its own recursive total if it is a category. *)
Definition child_total (fuel : nat) (h : heap) (v : loc) : Z :=
  if is_task h v then mins_of h v
  else default 0%Z (total_mins fuel h v true).

(** Every category of the heap has a well-formed mapping. *)
Definition heap_wf (h : heap) : Prop :=
  ∀ l c, h !! l = Some (CategoryObj c) → category_wf h l c.

(** An [int] for the examples, which only reads "45". *)
Definition int45 (s : string) : result Z :=
  if String.eqb s "45" then Ok 45%Z
  else Raise (ValueError "invalid literal for int() with base 10").

(** Every character of the text is a dot. *)
Fixpoint only_dots (s : string) : bool :=
  match s with
  | EmptyString => true
  | String c s' => Ascii.eqb c "."%char && only_dots s'
  end.

(** The text has a dot. *)
Fixpoint has_dot (s : string) : bool :=
  match s with
  | EmptyString => false
  | String c s' => Ascii.eqb c "."%char || has_dot s'
  end.

End Frames.

Module SlugifyTests.
Import Slugify.

Example slugify_hello_joel : slugify "Hello Joel" = "hello-joel".
Proof. reflexivity. Qed.

Example slugify_hello_commas : slugify "Hello, , Joel" = "hello-joel".
Proof. reflexivity. Qed.

Example slugify_hello_spaces : slugify " Hello " = "hello".
Proof. reflexivity. Qed.

Example slugify_unique_fresh : slugify_unique "Hello Joel" [] = "hello-joel".
Proof. vm_compute. reflexivity. Qed.

Example slugify_unique_2 : slugify_unique "Hello" ["hello"] = "hello-2".
Proof. vm_compute. reflexivity. Qed.

Example slugify_unique_3 :
  slugify_unique "Hello" ["hello"; "hello-2"] = "hello-3".
Proof. vm_compute. reflexivity. Qed.

End SlugifyTests.

(** * Properties of the slug generator *)

Section SlugChars.
Import Slugify SlugShape.

Local Ltac by_cases c :=
  destruct c as [[] [] [] [] [] [] [] []]; vm_compute; congruence.

Lemma alnum_lower_slug c : is_alnum c = true → is_slug_alnum (lower_char c) = true.
Proof. by_cases c. Qed.

Lemma lower_char_dash c : Ascii.eqb (lower_char c) dash = Ascii.eqb c dash.
Proof. by_cases c. Qed.

Lemma slug_alnum_lower c : is_slug_alnum c = true → lower_char c = c.
Proof. by_cases c. Qed.

Lemma slug_alnum_alnum c : is_slug_alnum c = true → is_alnum c = true.
Proof. by_cases c. Qed.

Lemma alnum_not_dash c : is_alnum c = true → Ascii.eqb c dash = false.
Proof. by_cases c. Qed.

Lemma dash_not_alnum c : Ascii.eqb c dash = true → is_alnum c = false.
Proof. by_cases c. Qed.

End SlugChars.

Section SlugStrings.
Import Slugify SlugShape.

(** The substitution, match by match: a kept character is copied, and a
    whole run of other characters, up to a kept character or the end of the
    string, becomes one dash. *)
Lemma re_sub_kept keep b c s :
  keep c = true →
  re_sub_from keep b (String c s) = String c (re_sub_from keep false s).
Proof. intros H. simpl. by rewrite H. Qed.

Lemma re_sub_run_end keep b s :
  match s with String c _ => keep c = true | EmptyString => True end →
  re_sub_from keep b s = re_sub_from keep false s.
Proof. destruct s as [|c s]; [done|]. intros H. simpl. by rewrite H. Qed.

Lemma re_sub_run keep b r s :
  r ≠ EmptyString →
  (∀ c, c ∈ list_ascii_of_string r → keep c = false) →
  match s with String c _ => keep c = true | EmptyString => True end →
  re_sub_from keep b (r +:+ s)
  = if b then re_sub_from keep false s
    else String dash (re_sub_from keep false s).
Proof.
  intros Hr Hrun Hs. revert b.
  induction r as [|c r IH]; [done|]. intros b.
  change (String c r +:+ s) with (String c (r +:+ s)). simpl.
  rewrite (Hrun c) by (simpl; left).
  assert (re_sub_from keep true (r +:+ s) = re_sub_from keep false s) as ->.
  { destruct r as [|c' r'].
    - change (EmptyString +:+ s) with s. by apply re_sub_run_end.
    - rewrite IH; [done..|]. intros c'' Hc''. apply Hrun. simpl. by right. }
  done.
Qed.

(** The substitution leaves characters of the class and single dashes, and
    emits no dash while it is inside a run. *)
Lemma re_sub_collapsed b s :
  collapsed is_alnum (re_sub_from is_alnum b s) = true
  ∧ (b = true → starts_with_dash (re_sub_from is_alnum b s) = false).
Proof.
  revert b. induction s as [|c s IH]; intros b; simpl; [done|].
  destruct (is_alnum c) eqn:Hc; simpl.
  - rewrite (alnum_not_dash c Hc), Hc. by destruct (IH false) as [-> _].
  - destruct b; [apply IH|]. simpl.
    destruct (IH true) as [-> ->]; done.
Qed.

Lemma lower_starts_with_dash s :
  starts_with_dash (lower s) = starts_with_dash s.
Proof. destruct s; simpl; [done|apply lower_char_dash]. Qed.

Lemma lower_collapsed s :
  collapsed is_alnum s = true → collapsed is_slug_alnum (lower s) = true.
Proof.
  induction s as [|c s IH]; simpl; [done|].
  rewrite lower_char_dash, lower_starts_with_dash.
  intros [H1 H2]%andb_true_iff. rewrite (IH H2), andb_true_r.
  destruct (Ascii.eqb c dash); [done|by apply alnum_lower_slug].
Qed.

Lemma collapsed_tail P c s : collapsed P (String c s) = true → collapsed P s = true.
Proof. simpl. by intros [_ ?]%andb_true_iff. Qed.

Lemma lstrip_collapsed P s : collapsed P s = true → collapsed P (lstrip s) = true.
Proof.
  induction s as [|c s IH]; [done|]. intros H. simpl.
  destruct (Ascii.eqb c dash); [|done]. by eapply IH, collapsed_tail.
Qed.

Lemma lstrip_no_leading_dash s : starts_with_dash (lstrip s) = false.
Proof.
  induction s as [|c s IH]; simpl; [done|].
  destruct (Ascii.eqb c dash) eqn:Hc; [done|]. simpl. by rewrite Hc.
Qed.

Lemma rstrip_cons c s :
  rstrip (String c s) =
    if String.eqb (rstrip s) EmptyString && Ascii.eqb c dash then EmptyString
    else String c (rstrip s).
Proof. simpl. destruct (rstrip s); simpl; [|done]. by destruct (Ascii.eqb c dash). Qed.

Lemma rstrip_starts_with_dash s :
  starts_with_dash (rstrip s) = true → starts_with_dash s = true.
Proof.
  destruct s as [|c s]; [done|]. rewrite rstrip_cons.
  by destruct (String.eqb (rstrip s) EmptyString && Ascii.eqb c dash).
Qed.

Lemma rstrip_collapsed P s : collapsed P s = true → collapsed P (rstrip s) = true.
Proof.
  induction s as [|c s IH]; [done|]. intros H. rewrite rstrip_cons.
  destruct (String.eqb (rstrip s) EmptyString && Ascii.eqb c dash); [done|].
  simpl in *. apply andb_true_iff in H as [H1 H2].
  rewrite (IH H2), andb_true_r.
  destruct (Ascii.eqb c dash); [|done].
  destruct (starts_with_dash (rstrip s)) eqn:Hr; [|done].
  apply rstrip_starts_with_dash in Hr. by rewrite Hr in H1.
Qed.

Lemma rstrip_no_trailing_dash s : ends_with_dash (rstrip s) = false.
Proof.
  induction s as [|c s IH]; [done|]. rewrite rstrip_cons.
  destruct (rstrip s) as [|c' r] eqn:Hr; simpl in *.
  - by destruct (Ascii.eqb c dash) eqn:Hc; simpl; [|rewrite Hc].
  - done.
Qed.

Lemma rstrip_no_leading_dash s :
  starts_with_dash s = false → starts_with_dash (rstrip s) = false.
Proof.
  intros H. destruct (starts_with_dash (rstrip s)) eqn:Hr; [|done].
  apply rstrip_starts_with_dash in Hr. congruence.
Qed.

(** Every slug has the shape [is_slug]. *)
Lemma slugify_is_slug s : is_slug (slugify s) = true.
Proof.
  unfold is_slug, slugify, strip, SLUGIFY_RE_sub.
  rewrite rstrip_collapsed, rstrip_no_leading_dash, rstrip_no_trailing_dash;
    [done|apply lstrip_no_leading_dash|].
  apply lstrip_collapsed, lower_collapsed, re_sub_collapsed.
Qed.

(** A string of that shape is left alone by each of the three steps. *)
Lemma re_sub_slug b s :
  collapsed is_slug_alnum s = true →
  (b = true → starts_with_dash s = false) →
  re_sub_from is_alnum b s = s.
Proof.
  revert b. induction s as [|c s IH]; intros b H Hb; simpl in *; [done|].
  apply andb_true_iff in H as [H1 H2].
  destruct (Ascii.eqb c dash) eqn:Hc.
  - rewrite (dash_not_alnum c Hc). destruct b; [by specialize (Hb eq_refl)|].
    apply Ascii.eqb_eq in Hc as ->. f_equal. apply IH; [done|].
    intros _. by apply negb_true_iff.
  - rewrite (slug_alnum_alnum c H1). f_equal. by apply IH.
Qed.

Lemma lower_slug s : collapsed is_slug_alnum s = true → lower s = s.
Proof.
  induction s as [|c s IH]; simpl; [done|]. intros [H1 H2]%andb_true_iff.
  rewrite (IH H2). f_equal.
  destruct (Ascii.eqb c dash) eqn:Hc; [|by apply slug_alnum_lower].
  by apply Ascii.eqb_eq in Hc as ->.
Qed.

Lemma lstrip_slug s : starts_with_dash s = false → lstrip s = s.
Proof. destruct s as [|c s]; simpl; [done|]. by intros ->. Qed.

Lemma rstrip_slug s : ends_with_dash s = false → rstrip s = s.
Proof.
  induction s as [|c s IH]; [done|]. intros H. rewrite rstrip_cons.
  destruct s as [|c' s]; simpl in *; [by rewrite H|].
  rewrite IH by done. done.
Qed.

Lemma slugify_fixes_slugs s : is_slug s = true → slugify s = s.
Proof.
  unfold is_slug. intros [[H1 H2%negb_true_iff]%andb_true_iff H3%negb_true_iff]%andb_true_iff.
  unfold slugify, strip, SLUGIFY_RE_sub.
  rewrite re_sub_slug, lower_slug, lstrip_slug, rstrip_slug; done.
Qed.

End SlugStrings.

Section SlugUnique.
Import Slugify SlugSpec.

Lemma string_app_length (s t : string) :
  String.length (s +:+ t) = String.length s + String.length t.
Proof. induction s; simpl; [done|]. by f_equal. Qed.

Lemma candidate_inj base j k :
  1 ≤ j → 1 ≤ k → candidate base j = candidate base k → j = k.
Proof.
  unfold candidate, suffixed. intros Hj Hk.
  repeat case_bool_decide; intros Heq; try lia.
  - apply (f_equal String.length) in Heq. rewrite string_app_length in Heq.
    simpl in Heq. lia.
  - apply (f_equal String.length) in Heq. rewrite string_app_length in Heq.
    simpl in Heq. lia.
  - apply (inj (String.app base)) in Heq. apply (inj (String.app "-")) in Heq.
    by apply (inj pretty) in Heq.
Qed.

(** What the loop has established when it stops, and when the fuel runs
    out first. *)
Lemma slugify_unique_loop_inv used base fuel count :
  1 ≤ count →
  match slugify_unique_loop fuel base count (candidate base count) used with
  | Some r =>
      ∃ n, (count ≤ n < count + fuel) ∧ r = candidate base n ∧ (r ∉ used)
           ∧ ∀ j, count ≤ j < n → candidate base j ∈ used
  | None => ∀ j, count ≤ j < count + fuel → candidate base j ∈ used
  end.
Proof.
  revert count. induction fuel as [|fuel IH]; intros count Hc; simpl.
  { intros j ?. lia. }
  case_bool_decide as Hin.
  - specialize (IH (S count) ltac:(lia)).
    replace (suffixed base (S count)) with (candidate base (S count))
      by (unfold candidate; case_bool_decide; [lia|done]).
    destruct (slugify_unique_loop _ _ _ _ _) as [r|].
    + destruct IH as (n & Hn & -> & Hr & Hbelow). exists n.
      split_and!; try done; try lia. intros j Hj.
      destruct (decide (j = count)) as [->|]; [done|apply Hbelow; lia].
    + intros j Hj.
      destruct (decide (j = count)) as [->|]; [done|apply IH; lia].
  - exists count. split_and!; try done; lia.
Qed.

(** The loop stops: [used] cannot hold more candidates than it has entries. *)
Lemma slugify_unique_loop_stops used base fuel count :
  1 ≤ count → length used < fuel →
  is_Some (slugify_unique_loop fuel base count (candidate base count) used).
Proof.
  intros Hc Hfuel. pose proof (slugify_unique_loop_inv used base fuel count Hc) as H.
  destruct (slugify_unique_loop _ _ _ _ _) as [r|]; [by eexists|].
  exfalso.
  assert (candidate base <$> seq count fuel ⊆+ used) as Hsub.
  { apply NoDup_submseteq.
    - apply NoDup_fmap_2_strong; [|apply NoDup_seq].
      intros j k Hj%elem_of_seq Hk%elem_of_seq. apply candidate_inj; lia.
    - intros x (j & -> & Hj%elem_of_seq)%list_elem_of_fmap. by apply H. }
  apply submseteq_length in Hsub. rewrite length_fmap, length_seq in Hsub. lia.
Qed.

Lemma slugify_unique_loop_mono used base slug fuel fuel' count r :
  fuel ≤ fuel' →
  slugify_unique_loop fuel base count slug used = Some r →
  slugify_unique_loop fuel' base count slug used = Some r.
Proof.
  revert fuel' count slug.
  induction fuel as [|fuel IH]; intros fuel' count slug Hle; simpl; [done|].
  destruct fuel' as [|fuel']; [lia|]. simpl.
  case_bool_decide; [|done]. apply IH. lia.
Qed.

(** Any amount of fuel above the size of [used] makes the loop return, and
    return the slug of [slugify_unique]. *)
Lemma slugify_unique_loop_fuel s used fuel :
  length used < fuel →
  slugify_unique_loop fuel (slugify s) 1 (slugify s) used
  = Some (slugify_unique s used).
Proof.
  intros Hfuel. unfold slugify_unique.
  destruct (slugify_unique_loop_stops used (slugify s) (S (length used)) 1)
    as [r Hr]; [lia..|].
  change (candidate (slugify s) 1) with (slugify s) in Hr.
  rewrite Hr. simpl. eapply slugify_unique_loop_mono; [|done]. lia.
Qed.

Lemma slugify_unique_candidate s used :
  ∃ n, 1 ≤ n ∧ slugify_unique s used = candidate (slugify s) n
       ∧ (slugify_unique s used ∉ used)
       ∧ ∀ j, 1 ≤ j < n → candidate (slugify s) j ∈ used.
Proof.
  pose proof (slugify_unique_loop_fuel s used (S (length used)) ltac:(lia)) as Hr.
  pose proof (slugify_unique_loop_inv used (slugify s) (S (length used)) 1
                ltac:(lia)) as H.
  change (candidate (slugify s) 1) with (slugify s) in H. rewrite Hr in H.
  destruct H as (n & Hn & Heq & Hnot & Hbelow). exists n.
  split_and!; try done; lia.
Qed.

End SlugUnique.

Section SlugClaims.
Import Slugify SlugSpec SlugShape.

(** C9. [slugify] is idempotent: slugifying a slug gives it back. *)
Theorem slugify_idempotent (x : string) : slugify (slugify x) = slugify x.
Proof. apply slugify_fixes_slugs, slugify_is_slug. Qed.

(** C2, at the input ["a--b"].  The specification keeps dashes that are
    already in the text, and so does the module docstring ("replaces
    non-alphanumeric-or-dash characters with a single dash"), while
    [SLUGIFY_RE] leaves the dash out of the class it keeps: the two dashes
    are one run of the pattern and come out as one. *)
Theorem slugify_collapses_dashes :
  slugify "a--b" = "a-b" ∧ normalize "a--b" = "a--b".
Proof. split; reflexivity. Qed.

(** Away from dashes the two agree: on a text without any dash the code
    computes what the specification words. *)
Lemma slugify_normalize_no_dash (s : string) :
  (∀ c, c ∈ list_ascii_of_string s → c ≠ dash) → slugify s = normalize s.
Proof.
  intros Hs. unfold slugify, normalize, SLUGIFY_RE_sub. do 2 f_equal.
  generalize false. induction s as [|c s IH]; intros b; simpl; [done|].
  assert (is_alnum_or_dash c = is_alnum c) as Hc.
  { unfold is_alnum_or_dash. destruct (Ascii.eqb_spec c dash) as [->|]; [|by rewrite orb_false_r].
    exfalso. eapply Hs; [|done]. simpl. left. }
  assert (∀ b, re_sub_from is_alnum b s = re_sub_from is_alnum_or_dash b s)
    as IH'.
  { apply IH. intros c' Hc'. apply Hs. simpl. by right. }
  by rewrite Hc, !IH'.
Qed.

(** C3. [slugify_unique] is a function of [text] and [used] that only
    tests membership in [used].  Its loop returns (with any fuel above the
    size of [used]); the result is [slugify text] when that is free and
    otherwise the first of [base-2], [base-3], ... not in [used]; it is
    never in [used]; with nothing used it is [slugify text]; and the two
    examples of the docstring hold. *)
Theorem slugify_unique_first_free :
  (∀ (text : string) (used : list string),
     (∀ fuel, length used < fuel →
        slugify_unique_loop fuel (slugify text) 1 (slugify text) used
        = Some (slugify_unique text used))
     ∧ (slugify text ∉ used → slugify_unique text used = slugify text)
     ∧ (slugify text ∈ used →
          ∃ n, 2 ≤ n
               ∧ slugify_unique text used = suffixed (slugify text) n
               ∧ ∀ j, 2 ≤ j < n → suffixed (slugify text) j ∈ used)
     ∧ (slugify_unique text used ∉ used)
     ∧ slugify_unique text [] = slugify text)
  ∧ slugify_unique "Hello" ["hello"] = "hello-2"
  ∧ slugify_unique "Hello" ["hello"; "hello-2"] = "hello-3".
Proof.
  split; [|split; vm_compute; reflexivity].
  intros text used.
  destruct (slugify_unique_candidate text used) as (n & Hn & Heq & Hnot & Hbelow).
  assert (∀ k, 2 ≤ k → candidate (slugify text) k = suffixed (slugify text) k) as Hcand.
  { intros k Hk. unfold candidate. case_bool_decide; [lia|done]. }
  split_and!.
  - intros fuel Hfuel. by apply slugify_unique_loop_fuel.
  - intros Hfree.
    destruct (decide (n = 1)) as [->|]; [done|].
    destruct Hfree. apply (Hbelow 1). lia.
  - intros Hused.
    destruct (decide (n = 1)) as [->|Hn1].
    { destruct Hnot. by rewrite Heq. }
    exists n. split; [lia|]. split; [by rewrite Heq, Hcand by lia|].
    intros j Hj. rewrite <-Hcand by lia. apply Hbelow. lia.
  - done.
  - destruct (slugify_unique_candidate text []) as (m & Hm & Heq' & _ & Hbelow').
    destruct (decide (m = 1)) as [->|]; [done|].
    specialize (Hbelow' 1 ltac:(lia)). by apply elem_of_nil in Hbelow'.
Qed.

End SlugClaims.

(** * Properties of the object model *)

Section Heap.
Import Models Trees.

Lemma get_category_run (h : heap) self c :
  h !! self = Some (CategoryObj c) → get_category self h = (Ok c, h).
Proof. intros H. unfold get_category, bind, get_obj. by rewrite H. Qed.

Lemma get_task_run (h : heap) self t :
  h !! self = Some (TaskObj t) → get_task self h = (Ok t, h).
Proof. intros H. unfold get_task, bind, get_obj. by rewrite H. Qed.

Lemma lookup_alloc_old (h : heap) o l x :
  h !! l = Some x → (h ++ [o]) !! l = Some x.
Proof. intros H. rewrite lookup_app_l; [done|]. by eapply lookup_lt_Some. Qed.

Lemma Category_setitem_alloc (h : heap) self c k o :
  h !! self = Some (CategoryObj c) →
  Category_setitem self k (length h) (h ++ [o]) = (Ok tt, after_add h self c k o).
Proof.
  intros H. unfold Category_setitem, bind.
  by rewrite (get_category_run _ _ c) by by apply lookup_alloc_old.
Qed.

Lemma contains_true (d : dict) k : contains d k = true ↔ k ∈ keys d.
Proof. unfold contains. apply bool_decide_eq_true. Qed.

Lemma contains_false (d : dict) k : contains d k = false ↔ k ∉ keys d.
Proof. unfold contains. apply bool_decide_eq_false. Qed.

(** What [add_task] does on a category, case by case. *)
Lemma add_task_run (h : heap) self c title description id mins :
  h !! self = Some (CategoryObj c) →
  add_task self title description id mins h =
    if match id with Some i => contains (cat_data c) i | None => false end
    then (Raise (KeyError_duplicate (resolved_id c title id)), h)
    else if negb (is_None mins) && negb (isinstance_int mins)
    then (Raise ValueError_mins, h)
    else (Ok (length h),
          after_add h self c (resolved_id c title id)
            (TaskObj (mkTask (Some self) (resolved_id c title id) title
                        description (stored_mins mins)))).
Proof.
  intros H. unfold add_task, resolve_id, bind at 1 2.
  rewrite (get_category_run _ _ c H).
  assert (∀ i, bind (Task_init i title description mins (Some self))
                 (λ task, bind (Category_setitem self i task) (λ _, ret task)) h
               = if negb (is_None mins) && negb (isinstance_int mins)
                 then (Raise ValueError_mins, h)
                 else (Ok (length h),
                       after_add h self c i
                         (TaskObj (mkTask (Some self) i title description
                                     (stored_mins mins))))) as Hbody.
  { intros i. unfold bind at 1, Task_init.
    destruct (negb (is_None mins) && negb (isinstance_int mins)); [done|].
    unfold alloc, bind. by rewrite (Category_setitem_alloc _ _ c) by done. }
  destruct id as [i|]; simpl.
  - destruct (contains (cat_data c) i); [done|]. apply Hbody.
  - apply Hbody.
Qed.

(** What [add_category] does on a category, case by case. *)
Lemma add_category_run (h : heap) self c title description id :
  h !! self = Some (CategoryObj c) →
  add_category self title description id h =
    if match id with Some i => contains (cat_data c) i | None => false end
    then (Raise (KeyError_duplicate (resolved_id c title id)), h)
    else (Ok (length h),
          after_add h self c (resolved_id c title id)
            (CategoryObj (mkCategory (Some self) (resolved_id c title id) title
                            description []))).
Proof.
  intros H. unfold add_category, resolve_id, bind at 1 2.
  rewrite (get_category_run _ _ c H).
  assert (∀ i, bind (Category_init i title description (Some self))
                 (λ cat, bind (Category_setitem self i cat) (λ _, ret cat)) h
               = (Ok (length h),
                  after_add h self c i
                    (CategoryObj (mkCategory (Some self) i title description
                                    [])))) as Hbody.
  { intros i. unfold bind at 1, Category_init, alloc, bind.
    by rewrite (Category_setitem_alloc _ _ c) by done. }
  destruct id as [i|]; simpl.
  - destruct (contains (cat_data c) i); [done|]. apply Hbody.
  - apply Hbody.
Qed.

(** The heap after an add: the parent, the new object, everything else. *)
Lemma after_add_self (h : heap) self c k o :
  h !! self = Some (CategoryObj c) →
  after_add h self c k o !! self
  = Some (CategoryObj (set_data c (setitem (cat_data c) k (length h)))).
Proof.
  intros H. unfold after_add. apply list_lookup_insert_eq.
  rewrite length_app. apply lookup_lt_Some in H. lia.
Qed.

Lemma after_add_new (h : heap) self c k o :
  h !! self = Some (CategoryObj c) →
  after_add h self c k o !! length h = Some o.
Proof.
  intros H. unfold after_add. rewrite list_lookup_insert_ne.
  - by rewrite lookup_app_r, Nat.sub_diag by lia.
  - apply lookup_lt_Some in H. lia.
Qed.

Lemma after_add_other (h : heap) self c k o l x :
  l ≠ self → h !! l = Some x → after_add h self c k o !! l = Some x.
Proof.
  intros Hne H. unfold after_add. rewrite list_lookup_insert_ne by done.
  by apply lookup_alloc_old.
Qed.

Lemma after_add_length (h : heap) self c k o :
  length (after_add h self c k o) = S (length h).
Proof. unfold after_add. rewrite length_insert, length_app. simpl. lia. Qed.

(** A key that is not in the dict is added at the end. *)
Lemma setitem_fresh (d : dict) k v : k ∉ keys d → setitem d k v = d ++ [(k, v)].
Proof.
  induction d as [|[k' v'] d IH]; simpl; [done|].
  intros [Hne Hd]%not_elem_of_cons.
  destruct (String.eqb_spec k' k) as [->|]; [done|]. by rewrite IH.
Qed.

End Heap.

Section AddClaims.
Import Models Trees.

(** C1 as stated fails at [mins = -5]: the value is supplied and is not a
    non-negative integer, yet the task is created and inserted. *)
Lemma add_task_accepts_negative_mins :
  is_None (PyInt (-5)) = false ∧ is_nonneg_int (PyInt (-5)) = false
  ∧ add_task 1 "Design" "" None (PyInt (-5)) Scenario.start
    = (Ok 2,
       [ RootObj [("work", 1)];
         CategoryObj (mkCategory (Some 0) "work" "Work" "" [("design", 2)]);
         TaskObj (mkTask (Some 1) "design" "Design" "" (Some (-5)%Z)) ]).
Proof. vm_compute. done. Qed.

(** C1, amended.  On a category, and when the id does not collide,
    [add_task] raises the [ValueError] of the duration exactly when [mins]
    is neither [None] nor an instance of [int] (of any sign, booleans
    included); the heap is then unchanged.  Otherwise the task is created
    with that duration and inserted. *)
Theorem add_task_mins_check (h : heap) self c title description id mins :
  h !! self = Some (CategoryObj c) →
  (∀ i, id = Some i → i ∉ keys (cat_data c)) →
  add_task self title description id mins h =
    if is_None mins || isinstance_int mins
    then (Ok (length h),
          after_add h self c (resolved_id c title id)
            (TaskObj (mkTask (Some self) (resolved_id c title id) title
                        description (stored_mins mins))))
    else (Raise ValueError_mins, h).
Proof.
  intros H Hid. rewrite (add_task_run h self c) by done.
  assert (match id with Some i => contains (cat_data c) i | None => false end
          = false) as ->.
  { destruct id as [i|]; [|done]. by apply contains_false, Hid. }
  by destruct (is_None mins), (isinstance_int mins).
Qed.

Lemma add_task_mins_check_witness :
  add_task 1 "Design" "" None (PyFloat 3 (-1)) Scenario.start
  = (Raise ValueError_mins, Scenario.start).
Proof.
  apply (add_task_mins_check Scenario.start 1
           (mkCategory (Some 0) "work" "Work" "" []) "Design" "" None
           (PyFloat 3 (-1))).
  - reflexivity.
  - intros i Hi. discriminate Hi.
Defined.

(** A colliding explicit id is reported before the duration is looked at,
    and nothing is inserted either. *)
Lemma add_task_duplicate_first (h : heap) self c title description i mins :
  h !! self = Some (CategoryObj c) → i ∈ keys (cat_data c) →
  add_task self title description (Some i) mins h
  = (Raise (KeyError_duplicate i), h).
Proof.
  intros H Hi. rewrite (add_task_run h self c) by done.
  by apply contains_true in Hi as ->.
Qed.

(** C10. An explicit id is only tested for membership among the keys of the
    parent: if it is there the call raises the [KeyError] and changes
    nothing; if not, the new object carries exactly that string as its id
    and is stored under exactly that key, after the existing items. *)
Theorem explicit_id_stored_verbatim (h : heap) self c title description i mins :
  h !! self = Some (CategoryObj c) →
  (i ∈ keys (cat_data c) →
     add_category self title description (Some i) h
     = (Raise (KeyError_duplicate i), h)
     ∧ add_task self title description (Some i) mins h
       = (Raise (KeyError_duplicate i), h))
  ∧ (i ∉ keys (cat_data c) →
     (∃ h', add_category self title description (Some i) h = (Ok (length h), h')
            ∧ h' !! length h
              = Some (CategoryObj (mkCategory (Some self) i title description []))
            ∧ h' !! self
              = Some (CategoryObj (set_data c (cat_data c ++ [(i, length h)]))))
     ∧ (is_None mins || isinstance_int mins = true →
        ∃ h', add_task self title description (Some i) mins h = (Ok (length h), h')
              ∧ h' !! length h
                = Some (TaskObj (mkTask (Some self) i title description
                                   (stored_mins mins)))
              ∧ h' !! self
                = Some (CategoryObj (set_data c (cat_data c ++ [(i, length h)]))))).
Proof.
  intros H. split.
  - intros Hi. split; [|by apply (add_task_duplicate_first h self c)].
    rewrite (add_category_run h self c) by done.
    by apply contains_true in Hi as ->.
  - intros Hi. split.
    + eexists. rewrite (add_category_run h self c) by done. simpl.
      apply contains_false in Hi as Hc. rewrite Hc. split; [done|].
      rewrite after_add_new, after_add_self by done.
      by rewrite setitem_fresh.
    + intros Hmins. eexists. rewrite (add_task_run h self c) by done. simpl.
      apply contains_false in Hi as Hc. rewrite Hc.
      assert (negb (is_None mins) && negb (isinstance_int mins) = false) as ->.
      { by destruct (is_None mins), (isinstance_int mins). }
      split; [done|].
      rewrite after_add_new, after_add_self by done.
      by rewrite setitem_fresh.
Qed.

Lemma explicit_id_stored_verbatim_witness :
  ∃ h', add_category 1 "Projects" "" (Some "") Scenario.start = (Ok 2, h')
        ∧ h' !! 2 = Some (CategoryObj (mkCategory (Some 1) "" "Projects" "" []))
        ∧ h' !! 1
          = Some (CategoryObj (mkCategory (Some 0) "work" "Work" "" [("", 2)])).
Proof.
  refine (proj1 (proj2 (explicit_id_stored_verbatim Scenario.start 1
           (mkCategory (Some 0) "work" "Work" "" []) "Projects" "" "" PyNone
           _) _)).
  - reflexivity.
  - apply not_elem_of_nil.
Defined.

(** Ids with capitals, blanks and dots go in unchanged as well. *)
Example explicit_id_examples :
  add_category 1 "Projects" "" (Some "My Projects.v2") Scenario.start
  = (Ok 2,
     [ RootObj [("work", 1)];
       CategoryObj (mkCategory (Some 0) "work" "Work" "" [("My Projects.v2", 2)]);
       CategoryObj (mkCategory (Some 1) "My Projects.v2" "Projects" "" []) ])
  ∧ add_task 1 "Design" "" (Some "") (PyInt 90) Scenario.start
    = (Ok 2,
       [ RootObj [("work", 1)];
         CategoryObj (mkCategory (Some 0) "work" "Work" "" [("", 2)]);
         TaskObj (mkTask (Some 1) "" "Design" "" (Some 90%Z)) ]).
Proof. vm_compute. done. Qed.

End AddClaims.

Section DeleteClaims.
Import Models Trees Tracker.

(** C7. A category with a parent and at least one child: [delete] without
    [recurse] raises the "without deleting children" exception, from the
    method itself and through [obj.delete(recurse=False)] alike, and the
    heap, hence the whole tree, is the one before the call. *)
Theorem delete_nonempty_category_refused (h : heap) self c parent :
  h !! self = Some (CategoryObj c) →
  cat_parent c = Some parent →
  cat_data c ≠ [] →
  Category_delete self false h = (Raise (NotEmpty (cat_id c)), h)
  ∧ call_delete self false h = (Raise (NotEmpty (cat_id c)), h).
Proof.
  intros H Hparent Hdata.
  assert (Category_delete self false h = (Raise (NotEmpty (cat_id c)), h)) as Hdel.
  { unfold Category_delete, bind. rewrite (get_category_run h self c H), Hparent.
    rewrite bool_decide_eq_false_2; [done|].
    unfold keys. by destruct (cat_data c). }
  split; [done|].
  unfold call_delete, bind, get_obj. by rewrite H.
Qed.

Lemma delete_nonempty_category_refused_witness :
  Category_delete 2 false Scenario.tree
  = (Raise (NotEmpty "projects"), Scenario.tree)
  ∧ call_delete 2 false Scenario.tree
    = (Raise (NotEmpty "projects"), Scenario.tree).
Proof.
  apply (delete_nonempty_category_refused Scenario.tree 2
           (mkCategory (Some 1) "projects" "Projects" "" [("design", 3)]) 1).
  - reflexivity.
  - reflexivity.
  - discriminate.
Defined.

(** With [recurse] the same category goes, and its subtree with it: the
    parent no longer has the key. *)
Example delete_recursive_scenario :
  call_delete 2 true Scenario.tree
  = (Ok tt,
     [ RootObj [("work", 1)];
       CategoryObj (mkCategory (Some 0) "work" "Work" "" []);
       CategoryObj (mkCategory (Some 1) "projects" "Projects" "" [("design", 3)]);
       TaskObj (mkTask (Some 2) "design" "Design" "" (Some 90%Z)) ])
  ∧ (traverse 0 "work.projects"
       [ RootObj [("work", 1)];
         CategoryObj (mkCategory (Some 0) "work" "Work" "" []);
         CategoryObj (mkCategory (Some 1) "projects" "Projects" "" [("design", 3)]);
         TaskObj (mkTask (Some 2) "design" "Design" "" (Some 90%Z)) ]).1
    = Raise (KeyError "projects").
Proof. vm_compute. done. Qed.

(** [Task.delete()] itself, called without any argument. *)
Lemma Task_delete_no_parent (h : heap) self t :
  h !! self = Some (TaskObj t) → task_parent t = None →
  Task_delete self h = (Raise NoParent_task, h).
Proof.
  intros H Hp. unfold Task_delete, bind.
  by rewrite (get_task_run h self t H), Hp.
Qed.

Lemma Task_delete_attached (h : heap) self t parent c d' :
  h !! self = Some (TaskObj t) → task_parent t = Some parent →
  h !! parent = Some (CategoryObj c) →
  delitem (cat_data c) (task_id t) = Some d' →
  Task_delete self h = (Ok tt, <[parent := CategoryObj (set_data c d')]> h).
Proof.
  intros H Hp Hc Hd. unfold Task_delete, bind.
  rewrite (get_task_run h self t H), Hp.
  unfold parent_delitem, bind, get_obj. by rewrite Hc, Hd.
Qed.

(** A task that was deleted keeps its [__parent__]: deleting it again does
    not report a missing parent but the missing key. *)
Lemma Task_delete_stale (h : heap) self t parent c :
  h !! self = Some (TaskObj t) → task_parent t = Some parent →
  h !! parent = Some (CategoryObj c) →
  delitem (cat_data c) (task_id t) = None →
  Task_delete self h = (Raise (KeyError (task_id t)), h).
Proof.
  intros H Hp Hc Hd. unfold Task_delete, bind.
  rewrite (get_task_run h self t H), Hp.
  unfold parent_delitem, bind, get_obj. by rewrite Hc, Hd.
Qed.

(** C8, on the code.  [do_rm] calls [obj.delete(recurse=recurse)] on
    whatever the path resolves to, but [Task.delete] declares no [recurse]
    parameter (unlike [Category.delete]): for a task the call raises a
    [TypeError] before the method body runs, whatever the flag and whether
    or not the task has a parent, and the task stays where it was. *)
Theorem do_rm_task_raises_TypeError (h : heap) root arg recurse obj t :
  traverse root arg h = (Ok obj, h) →
  obj ≠ root →
  h !! obj = Some (TaskObj t) →
  do_rm root arg recurse h
  = (Raise (TypeError_unexpected_keyword "recurse"), h).
Proof.
  intros Htr Hne H. unfold do_rm, bind. rewrite Htr.
  rewrite bool_decide_eq_false_2 by done.
  unfold call_delete, bind, get_obj. by rewrite H.
Qed.

Lemma do_rm_task_raises_TypeError_witness :
  do_rm 0 "work.projects.design" false Scenario.tree
  = (Raise (TypeError_unexpected_keyword "recurse"), Scenario.tree).
Proof.
  apply (do_rm_task_raises_TypeError Scenario.tree 0 "work.projects.design"
           false 3 (mkTask (Some 2) "design" "Design" "" (Some 90%Z))).
  - vm_compute. reflexivity.
  - discriminate.
  - reflexivity.
Defined.

End DeleteClaims.

Section SiblingIds.
Import Models Trees.

Lemma keys_app (d1 d2 : list (string * nat)) : keys (d1 ++ d2) = keys d1 ++ keys d2.
Proof. unfold keys. apply fmap_app. Qed.

(** Children owned by [l] carry the keys as their ids. *)
Lemma owned_ids (h : heap) l (d : list (string * nat)) :
  Forall (owns h l) d → id_of h <$> values d = Some <$> keys d.
Proof.
  unfold values, keys. induction 1 as [|[k v] d (o & Ho & Hid & _) _ IH]; [done|].
  rewrite !fmap_cons, IH. f_equal. unfold id_of. simpl in *. by rewrite Ho.
Qed.

Lemma siblings_wf_unique (h : heap) l : siblings_wf h l → sibling_ids_unique h l.
Proof.
  intros (c & H & Hnodup & Hforall). exists c. split; [done|].
  rewrite (owned_ids h l) by done. by apply NoDup_fmap_2; [apply _|].
Qed.

(** Adding to [self] keeps what [self] owned, and the new object is owned. *)
Lemma after_add_owns (h : heap) self c k o kv :
  h !! self = Some (CategoryObj c) →
  owns h self kv → owns (after_add h self c k o) self kv.
Proof.
  intros H (o' & Ho' & Hid & Hparent). unfold owns.
  destruct (decide (kv.2 = self)) as [Heq|Hne].
  - rewrite Heq in *. exists (CategoryObj (set_data c (setitem (cat_data c) k (length h)))).
    rewrite after_add_self by done. assert (o' = CategoryObj c) as -> by congruence.
    done.
  - exists o'. by rewrite (after_add_other h self c k o _ o').
Qed.

Lemma after_add_siblings_wf (h : heap) self c k o :
  h !! self = Some (CategoryObj c) → category_wf h self c →
  k ∉ keys (cat_data c) →
  obj_id o = Some k → obj_parent o = Some self →
  siblings_wf (after_add h self c k o) self.
Proof.
  intros H [Hnodup Hforall] Hk Hid Hparent.
  exists (set_data c (setitem (cat_data c) k (length h))).
  split; [by apply after_add_self|].
  unfold category_wf. cbn [cat_data set_data].
  rewrite setitem_fresh by done. split.
  - rewrite keys_app. apply NoDup_app. split_and!; [done| |apply NoDup_singleton].
    intros x Hx ->%list_elem_of_singleton. done.
  - apply Forall_app. split.
    + eapply Forall_impl; [done|]. intros kv. by apply after_add_owns.
    + apply Forall_singleton. exists o. cbn [fst snd]. by rewrite after_add_new.
Qed.

Lemma slugify_unique_fresh_key title (d : list (string * nat)) :
  Slugify.slugify_unique title (keys d) ∉ keys d.
Proof. by destruct (slugify_unique_candidate title (keys d)) as (_ & _ & _ & ? & _). Qed.

(** One call without an explicit id keeps the mapping of [self] well formed. *)
Lemma run_call_siblings_wf (h : heap) self call :
  siblings_wf h self → siblings_wf (run_call self call h).2 self.
Proof.
  intros (c & H & Hwf). destruct call as [title description|title description mins]; simpl.
  - rewrite (add_category_run h self c) by done. simpl.
    apply after_add_siblings_wf; auto using slugify_unique_fresh_key.
  - rewrite (add_task_run h self c) by done. simpl.
    destruct (negb (is_None mins) && negb (isinstance_int mins)); simpl.
    + by exists c.
    + apply after_add_siblings_wf; auto using slugify_unique_fresh_key.
Qed.

Lemma run_calls_siblings_wf (h : heap) self calls :
  siblings_wf h self → siblings_wf (run_calls self calls h) self.
Proof.
  revert h. induction calls as [|call calls IH]; intros h Hwf; simpl; [done|].
  by apply IH, run_call_siblings_wf.
Qed.

(** A call that returns has put the new object under a key that was not
    there, after the items that were. *)
Lemma run_call_inserts_fresh (h h' : heap) self c call new :
  h !! self = Some (CategoryObj c) →
  run_call self call h = (Ok new, h') →
  ∃ k, (k ∉ keys (cat_data c))
       ∧ h' !! self = Some (CategoryObj (set_data c (cat_data c ++ [(k, new)])))
       ∧ id_of h' new = Some k.
Proof.
  intros H. destruct call as [title description|title description mins]; simpl.
  - rewrite (add_category_run h self c) by done. simpl. intros [= <- <-].
    eexists. split; [apply slugify_unique_fresh_key|].
    unfold id_of. rewrite after_add_new, after_add_self by done.
    by rewrite setitem_fresh by apply slugify_unique_fresh_key.
  - rewrite (add_task_run h self c) by done. simpl.
    destruct (negb (is_None mins) && negb (isinstance_int mins)); [done|].
    intros [= <- <-].
    eexists. split; [apply slugify_unique_fresh_key|].
    unfold id_of. rewrite after_add_new, after_add_self by done.
    by rewrite setitem_fresh by apply slugify_unique_fresh_key.
Qed.

(** C4. Starting from a category whose mapping is well formed (a dict of
    children stored under their own ids, as every [add_] call leaves it;
    an empty category is one), after any sequence of [add_category] and
    [add_task] calls without explicit id no two children share an id, and
    the mapping is well formed again, so this holds after every call of
    the sequence.  Whichever call comes next, if it returns it has stored
    the new object under a key that was not among the keys at that time,
    after the items that were there. *)
Theorem sibling_ids_stay_unique (h : heap) self calls :
  siblings_wf h self →
  sibling_ids_unique (run_calls self calls h) self
  ∧ siblings_wf (run_calls self calls h) self
  ∧ ∀ call c new h',
      run_calls self calls h !! self = Some (CategoryObj c) →
      run_call self call (run_calls self calls h) = (Ok new, h') →
      ∃ k, (k ∉ keys (cat_data c))
           ∧ h' !! self
             = Some (CategoryObj (set_data c (cat_data c ++ [(k, new)])))
           ∧ id_of h' new = Some k.
Proof.
  intros Hwf. split_and!.
  - by apply siblings_wf_unique, run_calls_siblings_wf.
  - by apply run_calls_siblings_wf.
  - intros call c new h'. apply run_call_inserts_fresh.
Qed.

Lemma sibling_ids_stay_unique_witness :
  let calls := [AddCategory "Hello" ""; AddTask "Hello" "" (PyInt 5);
                AddTask "hello 2" "" (PyStr "x"); AddCategory "Hello!" ""] in
  sibling_ids_unique (run_calls 1 calls Scenario.start) 1
  ∧ siblings_wf (run_calls 1 calls Scenario.start) 1
  ∧ ∀ call c new h',
      run_calls 1 calls Scenario.start !! 1 = Some (CategoryObj c) →
      run_call 1 call (run_calls 1 calls Scenario.start) = (Ok new, h') →
      ∃ k, (k ∉ keys (cat_data c))
           ∧ h' !! 1
             = Some (CategoryObj (set_data c (cat_data c ++ [(k, new)])))
           ∧ id_of h' new = Some k.
Proof.
  apply (sibling_ids_stay_unique Scenario.start 1).
  exists (mkCategory (Some 0) "work" "Work" "" []).
  split; [reflexivity|]. split; [apply NoDup_nil_2|apply Forall_nil_2].
Defined.

(** The ids those four calls produce: the third call raises and adds
    nothing. *)
Example sibling_ids_example :
  run_calls 1 [AddCategory "Hello" ""; AddTask "Hello" "" (PyInt 5);
               AddTask "hello 2" "" (PyStr "x"); AddCategory "Hello!" ""]
    Scenario.start
  = [ RootObj [("work", 1)];
      CategoryObj (mkCategory (Some 0) "work" "Work" ""
                     [("hello", 2); ("hello-2", 3); ("hello-3", 4)]);
      CategoryObj (mkCategory (Some 1) "hello" "Hello" "" []);
      TaskObj (mkTask (Some 1) "hello-2" "Hello" "" (Some 5%Z));
      CategoryObj (mkCategory (Some 1) "hello-3" "Hello!" "" []) ].
Proof. vm_compute. reflexivity. Qed.

(** The scenario of the specification: two categories titled "Hello" under
    one parent get the ids [hello] and [hello-2]. *)
Example hello_twice :
  run_calls 1 [AddCategory "Hello" ""; AddCategory "Hello" ""] Scenario.start
  = [ RootObj [("work", 1)];
      CategoryObj (mkCategory (Some 0) "work" "Work" ""
                     [("hello", 2); ("hello-2", 3)]);
      CategoryObj (mkCategory (Some 1) "hello" "Hello" "" []);
      CategoryObj (mkCategory (Some 1) "hello-2" "Hello" "" []) ].
Proof. vm_compute. reflexivity. Qed.

End SiblingIds.

Section Sorting.
Import Models Trees.

#[local] Instance item_le_total : Total item_le.
Proof. intros a b. apply (total String.le). Qed.

#[local] Instance item_le_trans : Transitive item_le.
Proof. intros a b c. unfold item_le. apply transitivity. Qed.

Lemma sorted_Permutation (d : list (string * nat)) : sorted d ≡ₚ d.
Proof. apply merge_sort_Permutation. Qed.

Lemma sorted_StronglySorted (d : list (string * nat)) :
  StronglySorted item_le (sorted d).
Proof. apply StronglySorted_merge_sort; apply _. Qed.

Lemma sorted_elem_of (d : list (string * nat)) kv : kv ∈ sorted d ↔ kv ∈ d.
Proof. by rewrite sorted_Permutation. Qed.

Lemma keys_sorted_Permutation (d : list (string * nat)) :
  keys (sorted d) ≡ₚ keys d.
Proof. unfold keys. by rewrite sorted_Permutation. Qed.

Lemma values_sorted_Permutation (d : list (string * nat)) :
  values (sorted d) ≡ₚ values d.
Proof. unfold values. by rewrite sorted_Permutation. Qed.

(** A dict holds one value per key. *)
Lemma dict_key_unique (d : list (string * nat)) k v1 v2 :
  NoDup (keys d) → (k, v1) ∈ d → (k, v2) ∈ d → v1 = v2.
Proof.
  unfold keys. induction d as [|[k' v'] d IH]; [by intros _ ?%elem_of_nil|].
  rewrite fmap_cons. intros [Hk Hnodup]%NoDup_cons H1 H2.
  apply elem_of_cons in H1 as [H1|H1]; apply elem_of_cons in H2 as [H2|H2].
  - congruence.
  - injection H1 as -> ->. destruct Hk.
    apply list_elem_of_fmap. by exists (k', v2).
  - injection H2 as -> ->. destruct Hk.
    apply list_elem_of_fmap. by exists (k', v1).
  - by apply IH.
Qed.

(** The sorted items do not depend on the order the dict holds them in. *)
Lemma sorted_order_independent (d1 d2 : list (string * nat)) :
  NoDup (keys d1) → d1 ≡ₚ d2 → sorted d1 = sorted d2.
Proof.
  intros Hnodup Hperm.
  apply (StronglySorted_unique_strong item_le);
    [|apply sorted_StronglySorted..|by rewrite !sorted_Permutation].
  intros [k1 v1] [k2 v2] H1 H2 Hle1 Hle2.
  apply (proj1 (sorted_elem_of _ _)) in H1, H2. rewrite <-Hperm in H2.
  assert (k1 = k2) as -> by by apply (anti_symm String.le).
  f_equal. by eapply (dict_key_unique d1 k2).
Qed.

(** Different strings in order are in strict order. *)
Lemma string_le_ne_lt (a b : string) : String.le a b → a ≠ b → String.ltb a b = true.
Proof.
  unfold String.le, String.leb, String.ltb. intros Hle Hne.
  destruct (String.compare a b) eqn:Hcmp; [|done..].
  by apply String.compare_eq_iff in Hcmp.
Qed.

(** When every item asked for has a result, [mapM] returns all of them. *)
Lemma mapM_default {A B} (f : A → option (list B)) (l : list A) :
  Forall (λ x, is_Some (f x)) l →
  mapM f l = Some ((λ x, default [] (f x)) <$> l).
Proof.
  intros Hl. apply mapM_Some_2, Forall2_fmap_r, Forall_Forall2_diag.
  eapply Forall_impl; [done|]. intros x [y Hy]. simpl. by rewrite Hy.
Qed.

Lemma elem_of_values (d : list (string * nat)) v :
  v ∈ values d ↔ ∃ k, (k, v) ∈ d.
Proof.
  unfold values. rewrite list_elem_of_fmap. split.
  - intros ([k v'] & -> & ?). by exists k.
  - intros [k ?]. by exists (k, v).
Qed.

End Sorting.

Section FlatListings.
Import Models Trees.

Context (h : heap) (self : loc).

(** The items of a non-recursive listing: those of the sorted mapping whose
    value is of the class asked for. *)
Lemma flat_listing (item : string * nat → option (list nat)) (P : nat → bool)
    (items : list (string * nat)) :
  (∀ kv, kv ∈ items → item kv = Some (if P kv.2 then [kv.2] else [])) →
  List.concat (A:=nat) <$> mapM item items
  = Some (values (filter (λ kv, P kv.2) items)).
Proof.
  induction items as [|kv items IH]; intros Hitem; [done|].
  specialize (IH (λ kv' Hkv', Hitem kv' (list_elem_of_further _ _ _ Hkv'))).
  apply fmap_Some in IH as (ls & Hls & Hvalues).
  apply fmap_Some. rewrite filter_cons.
  exists ((if P kv.2 then [kv.2] else []) :: ls). split.
  - apply mapM_Some. apply mapM_Some in Hls. constructor; [|done].
    apply Hitem. left.
  - simpl. rewrite <-Hvalues. unfold values. case_decide as HP.
    + apply Is_true_true in HP. by rewrite HP.
    + apply Is_true_false in HP. by rewrite HP.
Qed.

Lemma categories_flat c fuel :
  h !! self = Some (CategoryObj c) →
  Forall (owns h self) (cat_data c) →
  categories (S fuel) h self false
  = Some (values (filter (λ kv, is_category h kv.2) (sorted (cat_data c)))).
Proof.
  intros H Howns. simpl. rewrite H. apply flat_listing.
  intros kv Hkv. apply (proj1 (sorted_elem_of _ _)) in Hkv.
  rewrite Forall_forall in Howns.
  destruct (Howns kv Hkv) as (o & Ho & _).
  unfold categories_item, is_category. rewrite Ho. by destruct o.
Qed.

Lemma tasks_flat c fuel :
  h !! self = Some (CategoryObj c) →
  Forall (owns h self) (cat_data c) →
  tasks (S fuel) h self false
  = Some (values (filter (λ kv, is_task h kv.2) (sorted (cat_data c)))).
Proof.
  intros H Howns. simpl. rewrite H. apply flat_listing.
  intros kv Hkv. apply (proj1 (sorted_elem_of _ _)) in Hkv.
  rewrite Forall_forall in Howns.
  destruct (Howns kv Hkv) as (o & Ho & _).
  unfold tasks_item, is_task. rewrite Ho. by destruct o.
Qed.

(** The values of owned items in key order, whatever subset is kept, are
    in strictly ascending order of their ids. *)
Lemma filtered_values_sorted (P : nat → bool) (items : list (string * nat)) :
  Forall (owns h self) items →
  NoDup (keys items) →
  StronglySorted item_le items →
  StronglySorted (id_lt h) (values (filter (λ kv, P kv.2) items)).
Proof.
  unfold values, keys.
  induction items as [|[k v] items IH]; intros Howns Hnodup Hsorted.
  { constructor. }
  apply Forall_cons in Howns as [Hkv Howns].
  rewrite fmap_cons in Hnodup. apply NoDup_cons in Hnodup as [Hk Hnodup].
  apply StronglySorted_inv in Hsorted as [Hsorted Hle].
  specialize (IH Howns Hnodup Hsorted).
  rewrite filter_cons. case_decide; [|done].
  rewrite fmap_cons. constructor; [done|].
  apply Forall_fmap, Forall_forall. intros [k' v'] [_ Hin]%list_elem_of_filter.
  rewrite Forall_forall in Howns, Hle.
  destruct Hkv as (o & Ho & Hid & _).
  destruct (Howns _ Hin) as (o' & Ho' & Hid' & _).
  exists k, k'. unfold id_of. simpl in *. rewrite Ho, Ho'. split_and!; [done..|].
  apply string_le_ne_lt; [apply (Hle _ Hin)|].
  intros ->. apply Hk. apply list_elem_of_fmap. by exists (k', v').
Qed.

Lemma filter_values (P : nat → bool) (items : list (string * nat)) :
  values (filter (λ kv, P kv.2) items) = filter (λ v, P v) (values items).
Proof.
  unfold values. induction items as [|kv items IH]; [done|].
  rewrite fmap_cons, !filter_cons, <-IH. by case_decide.
Qed.

End FlatListings.

Section FlatListingClaim.
Import Models Trees.

(** C5. For a category whose mapping is well formed, the non-recursive
    listings return (with any fuel, one level being all they look at)
    exactly the child categories, respectively the child tasks, in strictly
    ascending order of their ids; the sorted items they walk through are
    the same for every order in which the mapping may hold its items. *)
Theorem flat_listings_sorted_by_id (h : heap) self c fuel :
  h !! self = Some (CategoryObj c) →
  category_wf h self c →
  ∃ cs ts,
    categories (S fuel) h self false = Some cs
    ∧ tasks (S fuel) h self false = Some ts
    ∧ cs ≡ₚ filter (λ v, is_category h v) (values (cat_data c))
    ∧ ts ≡ₚ filter (λ v, is_task h v) (values (cat_data c))
    ∧ StronglySorted (id_lt h) cs
    ∧ StronglySorted (id_lt h) ts
    ∧ ∀ d, d ≡ₚ cat_data c → sorted d = sorted (cat_data c).
Proof.
  intros H [Hnodup Howns].
  assert (Forall (owns h self) (sorted (cat_data c))) as Howns'.
  { by rewrite sorted_Permutation. }
  assert (NoDup (keys (sorted (cat_data c)))) as Hnodup'.
  { by rewrite keys_sorted_Permutation. }
  eexists _, _.
  rewrite (categories_flat h self c), (tasks_flat h self c) by done.
  split_and!; [done|done|..].
  - by rewrite filter_values, values_sorted_Permutation.
  - by rewrite filter_values, values_sorted_Permutation.
  - apply (filtered_values_sorted h self); auto using sorted_StronglySorted.
  - apply (filtered_values_sorted h self); auto using sorted_StronglySorted.
  - intros d Hd. symmetry. by apply sorted_order_independent.
Qed.

End FlatListingClaim.

Section FlatListingWitness.
Import Models Trees.

Lemma flat_listings_sorted_by_id_witness :
  ∃ cs ts,
    categories 1 Scenario.unordered 1 false = Some cs
    ∧ tasks 1 Scenario.unordered 1 false = Some ts
    ∧ cs ≡ₚ filter (λ v, is_category Scenario.unordered v) [2; 3; 4; 5]
    ∧ ts ≡ₚ filter (λ v, is_task Scenario.unordered v) [2; 3; 4; 5]
    ∧ StronglySorted (id_lt Scenario.unordered) cs
    ∧ StronglySorted (id_lt Scenario.unordered) ts
    ∧ ∀ d, d ≡ₚ [("b", 2); ("c", 3); ("a", 4); ("d", 5)] →
           sorted d = sorted [("b", 2); ("c", 3); ("a", 4); ("d", 5)].
Proof.
  apply (flat_listings_sorted_by_id Scenario.unordered 1
           (mkCategory (Some 0) "box" "Box" ""
              [("b", 2); ("c", 3); ("a", 4); ("d", 5)]) 0).
  - reflexivity.
  - split.
    + apply (bool_decide_unpack _). vm_compute. exact I.
    + repeat (apply Forall_cons_2 || apply Forall_nil_2);
        (eexists; split; [reflexivity|split; reflexivity]).
Defined.

(** The children inserted as [b], [c], [a], [d] are listed as [a], [c]
    (the categories) and [b], [d] (the tasks). *)
Example unordered_listings :
  categories 1 Scenario.unordered 1 false = Some [4; 3]
  ∧ tasks 1 Scenario.unordered 1 false = Some [2; 5]
  ∧ tasks 2 Scenario.unordered 1 true = Some [6; 2; 5]
  ∧ categories 3 Scenario.tree 1 true = Some [2].
Proof. vm_compute. done. Qed.

End FlatListingWitness.

(** * Recursive listings and totals *)

Section Reach.
Import Models Trees.

Context (h : heap).

Lemma children_category l c :
  h !! l = Some (CategoryObj c) → children h l = values (cat_data c).
Proof. intros H. unfold children. by rewrite H. Qed.

Lemma children_task l t : h !! l = Some (TaskObj t) → children h l = [].
Proof. intros H. unfold children. by rewrite H. Qed.

Lemma reachable_reach_n l t : reachable h l t ↔ ∃ n, reach_n h (S n) l t.
Proof.
  split.
  - induction 1 as [l v Hv|l v w Hv _ [n IH]].
    + exists 0, v. done.
    + exists (S n), v. done.
  - intros [n Hn]. revert l Hn. induction n as [|n IH]; intros l (v & Hv & Hn).
    + simpl in Hn. subst. by constructor.
    + eapply reachable_step; [done|]. by apply IH.
Qed.

(** A child of a node of a tree: one level less below it, and its
    [__parent__] is that node. *)
Lemma tree_under_child d l v :
  tree_under h d l → v ∈ children h l →
  ∃ d', d = S d' ∧ tree_under h d' v ∧ h !! v ≫= obj_parent = Some l.
Proof.
  intros Htree Hv. destruct Htree as [d l t Ht|d l c Hc [_ Howns] Hsub].
  - rewrite (children_task l t Ht) in Hv. by apply elem_of_nil in Hv.
  - rewrite (children_category l c Hc) in Hv. exists d. split_and!; [done|auto|].
    apply elem_of_values in Hv as [k Hkv]. rewrite Forall_forall in Howns.
    destruct (Howns _ Hkv) as (o & Ho & _ & Hparent). simpl in Ho.
    by rewrite Ho.
Qed.

Lemma tree_under_reach n : ∀ d l x,
  tree_under h d l → reach_n h n l x → n ≤ d ∧ tree_under h (d - n) x.
Proof.
  induction n as [|n IH]; intros d l x Htree Hreach; simpl in Hreach.
  - subst. rewrite Nat.sub_0_r. split; [lia|done].
  - destruct Hreach as (v & Hv & Hreach).
    destruct (tree_under_child d l v Htree Hv) as (d' & -> & Htree' & _).
    destruct (IH d' v x Htree' Hreach) as [? ?]. split; [lia|done].
Qed.

(** No node of a tree lies below itself. *)
Lemma tree_under_acyclic d : ∀ l m, tree_under h d l → ¬ reach_n h (S m) l l.
Proof.
  induction (lt_wf d) as [d _ IH]. intros l m Htree Hreach.
  destruct (tree_under_reach (S m) d l l Htree Hreach) as [Hle Htree'].
  apply (IH (d - S m) ltac:(lia) l m Htree' Hreach).
Qed.

(** Going down [n] levels and then up [n] times leads back. *)
Lemma reach_ancestor n : ∀ d l t,
  tree_under h d l → reach_n h n l t → ancestor h n t = Some l.
Proof.
  induction n as [|n IH]; intros d l t Htree Hreach; simpl in *.
  - by subst.
  - destruct Hreach as (v & Hv & Hreach).
    destruct (tree_under_child d l v Htree Hv) as (d' & -> & Htree' & Hparent).
    by rewrite (IH d' v t Htree' Hreach).
Qed.

Lemma reach_n_split m : ∀ n l t,
  reach_n h (m + n) l t ↔ ∃ w, reach_n h m l w ∧ reach_n h n w t.
Proof.
  induction m as [|m IH]; intros n l t; simpl.
  - split; [by exists l|by intros (w & -> & ?)].
  - split.
    + intros (v & Hv & (w & ? & ?)%IH). exists w. split; [by exists v|done].
    + intros (w & (v & Hv & ?) & ?). exists v. split; [done|].
      apply IH. by exists w.
Qed.

(** A node below two children of a node of a tree: the children are one. *)
Lemma subtrees_disjoint_le d l v1 v2 a b t :
  tree_under h d l → v1 ∈ children h l → v2 ∈ children h l →
  reach_n h a v1 t → reach_n h b v2 t → a ≤ b → v1 = v2.
Proof.
  intros Htree Hv1 Hv2 Ha Hb Hle.
  destruct (tree_under_child d l v1 Htree Hv1) as (d' & -> & Htree1 & Hparent1).
  destruct (tree_under_child (S d') l v2 Htree Hv2) as (? & [= <-] & Htree2 & _).
  replace b with ((b - a) + a) in Hb by lia.
  apply reach_n_split in Hb as (w & Hw & Hwt).
  destruct (tree_under_reach _ _ _ _ Htree2 Hw) as [_ Htreew].
  assert (w = v1) as ->.
  { pose proof (reach_ancestor _ _ _ _ Htreew Hwt) as E1.
    pose proof (reach_ancestor _ _ _ _ Htree1 Ha) as E2. congruence. }
  destruct (b - a) as [|m]; [done|]. exfalso.
  replace (S m) with (m + 1) in Hw by lia.
  apply reach_n_split in Hw as (w' & Hw' & (v & Hv & ->)).
  destruct (tree_under_reach _ _ _ _ Htree2 Hw') as [_ Htreew'].
  destruct (tree_under_child _ _ _ Htreew' Hv) as (? & _ & _ & Hparent).
  assert (w' = l) as -> by congruence.
  apply (tree_under_acyclic (S d') l m Htree). by exists v2.
Qed.

Lemma subtrees_disjoint d l v1 v2 a b t :
  tree_under h d l → v1 ∈ children h l → v2 ∈ children h l →
  reach_n h a v1 t → reach_n h b v2 t → v1 = v2.
Proof.
  intros Htree Hv1 Hv2 Ha Hb. destruct (decide (a ≤ b)).
  - by eapply (subtrees_disjoint_le d l v1 v2 a b).
  - symmetry. eapply (subtrees_disjoint_le d l v2 v1 b a); eauto with lia.
Qed.

End Reach.

Section RecursiveTasks.
Import Models Trees.

Lemma elem_of_concat_fmap {A B} (g : A → list B) (l : list A) t :
  t ∈ List.concat (g <$> l) ↔ ∃ x, x ∈ l ∧ t ∈ g x.
Proof.
  induction l as [|x l IH]; csimpl.
  - split; [by intros ?%elem_of_nil|by intros (x & ?%elem_of_nil & _)].
  - rewrite elem_of_app, IH. split.
    + intros [?|(y & ? & ?)]; [exists x|exists y]; by split; [constructor|].
    + intros (y & [->|?]%elem_of_cons & ?); [by left|right; by exists y].
Qed.

Lemma NoDup_concat_fmap {A B} (g : A → list B) (l : list A) :
  NoDup l →
  (∀ x, x ∈ l → NoDup (g x)) →
  (∀ x y t, x ∈ l → y ∈ l → t ∈ g x → t ∈ g y → x = y) →
  NoDup (List.concat (g <$> l)).
Proof.
  induction 1 as [|x l Hx Hl IH]; intros Hg Hdisj; csimpl; [constructor|].
  apply NoDup_app. split_and!.
  - apply Hg. left.
  - intros t Htx (y & Hy & Hty)%elem_of_concat_fmap.
    apply Hx. by rewrite (Hdisj x y t) by (done || by constructor).
  - apply IH.
    + intros y Hy. apply Hg. by right.
    + intros y z t Hy Hz. apply Hdisj; by right.
Qed.

Context (h : heap).

Lemma tasks_S fuel l c recurse :
  h !! l = Some (CategoryObj c) →
  tasks (S fuel) h l recurse
  = List.concat (A:=nat) <$>
      mapM (tasks_item h (λ v, tasks fuel h v true) recurse) (sorted (cat_data c)).
Proof. intros H. simpl. by rewrite H. Qed.

(** With fuel for the depth of the tree, the recursive listing of tasks
    returns every task below the category, each once. *)
Lemma tasks_enumerates d : ∀ l c fuel,
  h !! l = Some (CategoryObj c) → tree_under h d l → d ≤ fuel →
  ∃ ts, tasks fuel h l true = Some ts ∧ NoDup ts
        ∧ ∀ t, t ∈ ts ↔ (∃ n, reach_n h (S n) l t) ∧ is_task h t = true.
Proof.
  induction d as [|d IH]; intros l c fuel Hc Htree Hfuel.
  { inversion Htree; congruence. }
  destruct fuel as [|fuel]; [lia|].
  inversion Htree as [? ? t Ht|? ? c' Hc' [Hnodup Howns] Hsub]; subst; [congruence|].
  assert (c' = c) as -> by congruence.
  rewrite Forall_forall in Howns.
  set (item := tasks_item h (λ v, tasks fuel h v true) true).
  assert (∀ kv, kv ∈ cat_data c →
            ∃ sub, item kv = Some sub ∧ NoDup sub
                   ∧ ∀ t, t ∈ sub ↔ (∃ n, reach_n h n kv.2 t) ∧ is_task h t = true)
    as Hitem.
  { intros [k v] Hkv. destruct (Howns _ Hkv) as (o & Ho & Hid & Hparent).
    simpl in Ho, Hid, Hparent |- *. unfold item, tasks_item. cbn [snd]. rewrite Ho.
    destruct o as [|c'|t']; [done|..].
    - destruct (IH v c' fuel Ho) as (ts & Hts & Hnd & Hmem); [|lia|].
      { apply Hsub, elem_of_values. by exists k. }
      exists ts. split_and!; [done..|]. intros t. rewrite Hmem. split.
      + intros [[n Hn] Ht]. split; [by exists (S n)|done].
      + intros [[n Hn] Ht]. split; [|done]. destruct n as [|n]; [|by exists n].
        simpl in Hn. subst. unfold is_task in Ht. by rewrite Ho in Ht.
    - exists [v]. split_and!; [done|apply NoDup_singleton|].
      intros t. rewrite list_elem_of_singleton. split.
      + intros ->. split; [by exists 0|]. unfold is_task. by rewrite Ho.
      + intros [[n Hn] _]. destruct n as [|n]; [done|].
        destruct Hn as (w & Hw & _). rewrite (children_task h v t' Ho) in Hw.
        by apply elem_of_nil in Hw. }
  rewrite (tasks_S fuel l c true Hc). fold item.
  rewrite (mapM_default item).
  2:{ apply Forall_forall. intros kv Hkv. apply (proj1 (sorted_elem_of _ _)) in Hkv.
      destruct (Hitem kv Hkv) as (sub & -> & _). by eexists. }
  eexists. split; [done|]. split.
  - apply NoDup_concat_fmap.
    + apply (NoDup_fmap_1 fst). fold (keys (sorted (cat_data c))).
      by rewrite keys_sorted_Permutation.
    + intros kv Hkv. apply (proj1 (sorted_elem_of _ _)) in Hkv.
      by destruct (Hitem kv Hkv) as (sub & -> & ? & _).
    + intros [k1 v1] [k2 v2] t Hkv1 Hkv2.
      apply (proj1 (sorted_elem_of _ _)) in Hkv1, Hkv2.
      destruct (Hitem _ Hkv1) as (sub1 & -> & _ & Hmem1).
      destruct (Hitem _ Hkv2) as (sub2 & -> & _ & Hmem2).
      simpl. intros [[a Ha] _]%Hmem1 [[b Hb] _]%Hmem2. simpl in Ha, Hb.
      assert (v1 = v2) as ->.
      { eapply (subtrees_disjoint h (S d) l v1 v2 a b); eauto.
        - rewrite (children_category h l c Hc). apply elem_of_values. by exists k1.
        - rewrite (children_category h l c Hc). apply elem_of_values. by exists k2. }
      destruct (Howns _ Hkv1) as (o1 & Ho1 & Hid1 & _).
      destruct (Howns _ Hkv2) as (o2 & Ho2 & Hid2 & _).
      simpl in *. congruence.
  - intros t. rewrite elem_of_concat_fmap. split.
    + intros (kv & Hkv & Ht). apply (proj1 (sorted_elem_of _ _)) in Hkv.
      destruct (Hitem kv Hkv) as (sub & Hsome & _ & Hmem).
      rewrite Hsome in Ht. simpl in Ht. apply Hmem in Ht as [[n Hn] Htask].
      split; [|done]. exists n, kv.2. split; [|done].
      rewrite (children_category h l c Hc). apply elem_of_values.
      exists kv.1. by destruct kv.
    + intros [(n & v & Hv & Hn) Htask].
      rewrite (children_category h l c Hc) in Hv.
      apply elem_of_values in Hv as [k Hkv]. exists (k, v). split.
      { by apply sorted_elem_of. }
      destruct (Hitem _ Hkv) as (sub & -> & _ & Hmem). simpl.
      apply Hmem. split; [by exists n|done].
Qed.

End RecursiveTasks.

Section Totals.
Import Models Trees.

Lemma fold_left_add (l : list Z) (a : Z) :
  fold_left Z.add l a = (a + foldr Z.add 0 l)%Z.
Proof.
  revert a. induction l as [|x l IH]; intros a; simpl; [lia|]. rewrite IH. lia.
Qed.

Lemma sum_foldr (l : list Z) : sum l = foldr Z.add 0%Z l.
Proof. unfold sum. rewrite fold_left_add. lia. Qed.

(** [t.mins or 0] is the duration with unset read as 0. *)
Lemma mins_or_0_mins_of (h : heap) t : mins_or_0 h t = mins_of h t.
Proof.
  unfold mins_or_0, mins_of. destruct (h !! t) as [[| |t']|]; try done.
  destruct (task_mins t') as [z|]; simpl; [|done].
  destruct (Z.eqb_spec z 0); by subst.
Qed.

Lemma sum_mins_Permutation (h : heap) ts1 ts2 :
  ts1 ≡ₚ ts2 → sum_mins h ts1 = sum_mins h ts2.
Proof.
  unfold sum_mins.
  induction 1 as [|x l1 l2 _ IH|x y l|l1 l2 l3 _ IH1 _ IH2]; csimpl; lia.
Qed.

Lemma total_mins_tasks (h : heap) fuel self recurse ts :
  tasks fuel h self recurse = Some ts →
  total_mins fuel h self recurse = Some (sum_mins h ts).
Proof.
  intros H. unfold total_mins. rewrite H. simpl. f_equal.
  rewrite sum_foldr. unfold sum_mins. f_equal.
  apply list_fmap_ext. intros _ t _. apply mins_or_0_mins_of.
Qed.

(** C6. For a category at the top of a tree of depth at most [d] and with
    fuel for that depth: the recursive listing returns the tasks reachable
    under the category, each once, and [total_mins] returns the sum of their
    durations, unset counting as 0 (the sum over any enumeration [ts] of
    exactly these tasks). *)
Theorem total_mins_sums_reachable_tasks (h : heap) d self c fuel :
  h !! self = Some (CategoryObj c) →
  tree_under h d self →
  d ≤ fuel →
  (∃ ts, tasks fuel h self true = Some ts ∧ NoDup ts
         ∧ ∀ t, t ∈ ts ↔ reachable h self t ∧ is_task h t = true)
  ∧ ∀ ts, NoDup ts →
          (∀ t, t ∈ ts ↔ reachable h self t ∧ is_task h t = true) →
          total_mins fuel h self true = Some (sum_mins h ts).
Proof.
  intros Hc Htree Hfuel.
  destruct (tasks_enumerates h d self c fuel Hc Htree Hfuel)
    as (ts0 & Htasks & Hnodup & Hmem).
  setoid_rewrite <-reachable_reach_n in Hmem.
  split; [by exists ts0|]. intros ts Hnodup' Hmem'.
  rewrite (total_mins_tasks h fuel self true ts0 Htasks). f_equal.
  apply sum_mins_Permutation, NoDup_Permutation; [done..|].
  intros t. by rewrite Hmem, Hmem'.
Qed.

Lemma total_mins_sums_reachable_tasks_witness :
  (∃ ts, tasks 2 Scenario.unordered 1 true = Some ts ∧ NoDup ts
         ∧ ∀ t, t ∈ ts ↔ reachable Scenario.unordered 1 t
                         ∧ is_task Scenario.unordered t = true)
  ∧ ∀ ts, NoDup ts →
          (∀ t, t ∈ ts ↔ reachable Scenario.unordered 1 t
                          ∧ is_task Scenario.unordered t = true) →
          total_mins 2 Scenario.unordered 1 true
          = Some (sum_mins Scenario.unordered ts).
Proof.
  apply (total_mins_sums_reachable_tasks Scenario.unordered 2 1
           (mkCategory (Some 0) "box" "Box" ""
              [("b", 2); ("c", 3); ("a", 4); ("d", 5)]) 2).
  - reflexivity.
  - eapply tree_category; [reflexivity| |].
    + split.
      * apply (bool_decide_unpack _). vm_compute. exact I.
      * repeat (apply Forall_cons_2 || apply Forall_nil_2);
          (eexists; split; [reflexivity|split; reflexivity]).
    + intros v Hv. unfold values in Hv. simpl in Hv.
      apply elem_of_cons in Hv as [->|Hv]; [by eapply tree_task|].
      apply elem_of_cons in Hv as [->|Hv].
      { eapply tree_category; [reflexivity| |].
        - split; [apply NoDup_nil_2|apply Forall_nil_2].
        - intros w Hw. by apply elem_of_nil in Hw. }
      apply elem_of_cons in Hv as [->|Hv].
      { eapply tree_category; [reflexivity| |].
        - split; [apply NoDup_singleton|].
          apply Forall_singleton. eexists. split; [reflexivity|split; reflexivity].
        - intros w Hw. apply list_elem_of_singleton in Hw as ->.
          by eapply tree_task. }
      apply elem_of_cons in Hv as [->|Hv]; [by eapply tree_task|].
      by apply elem_of_nil in Hv.
  - lia.
Defined.

(** The totals of the two scenarios. *)
Example scenario_totals :
  total_mins 3 Scenario.tree 1 true = Some 90%Z
  ∧ total_mins 1 Scenario.tree 1 false = Some 0%Z
  ∧ total_mins 2 Scenario.unordered 1 true = Some 25%Z
  ∧ total_mins 1 Scenario.unordered 1 false = Some 20%Z.
Proof. vm_compute. done. Qed.

End Totals.

(** * More on the slug generator *)

Section SlugMargins.
Import Slugify SlugShape SlugText.

Local Ltac by_cases c :=
  destruct c as [[] [] [] [] [] [] [] []]; vm_compute; congruence.

Lemma is_alnum_lower c : is_alnum (lower_char c) = is_alnum c.
Proof. by_cases c. Qed.

Lemma string_app_cons c (a s : string) : String c a +:+ s = String c (a +:+ s).
Proof. reflexivity. Qed.

Lemma string_app_nil_l (s : string) : EmptyString +:+ s = s.
Proof. reflexivity. Qed.

Lemma string_app_nil_r (s : string) : s +:+ EmptyString = s.
Proof. induction s as [|c s IH]; [done|]. by rewrite string_app_cons, IH. Qed.

Lemma string_app_assoc (a b c : string) : (a +:+ b) +:+ c = a +:+ (b +:+ c).
Proof. induction a as [|x a IH]; [done|]. by rewrite !string_app_cons, IH. Qed.

Lemma has_alnum_re_sub b s : has_alnum (re_sub_from is_alnum b s) = has_alnum s.
Proof.
  revert b. induction s as [|c s IH]; intros b; simpl; [done|].
  destruct (is_alnum c) eqn:Hc; simpl; [by rewrite Hc, IH|].
  destruct b; simpl; by rewrite IH.
Qed.

Lemma has_alnum_lower s : has_alnum (lower s) = has_alnum s.
Proof. induction s as [|c s IH]; simpl; [done|]. by rewrite is_alnum_lower, IH. Qed.

Lemma has_alnum_lstrip s : has_alnum (lstrip s) = has_alnum s.
Proof.
  induction s as [|c s IH]; simpl; [done|].
  destruct (Ascii.eqb c dash) eqn:Hc; [|done].
  by rewrite (dash_not_alnum c Hc).
Qed.

Lemma has_alnum_rstrip s : has_alnum (rstrip s) = has_alnum s.
Proof.
  induction s as [|c s IH]; [done|]. rewrite rstrip_cons. simpl.
  destruct (String.eqb_spec (rstrip s) EmptyString) as [Hr|_]; simpl.
  - rewrite <-IH, Hr. simpl. destruct (Ascii.eqb c dash) eqn:Hc; simpl.
    + by rewrite (dash_not_alnum c Hc).
    + by rewrite orb_false_r.
  - by rewrite IH.
Qed.

Lemma has_alnum_slugify s : has_alnum (slugify s) = has_alnum s.
Proof.
  unfold slugify, strip, SLUGIFY_RE_sub.
  by rewrite has_alnum_rstrip, has_alnum_lstrip, has_alnum_lower, has_alnum_re_sub.
Qed.

Lemma slug_without_alnum t : is_slug t = true → has_alnum t = false → t = EmptyString.
Proof.
  destruct t as [|c t]; [done|]. unfold is_slug. simpl.
  destruct (Ascii.eqb c dash) eqn:Hc; simpl.
  - by rewrite andb_false_r.
  - intros [[[H _]%andb_true_iff _]%andb_true_iff _]%andb_true_iff.
    by rewrite (slug_alnum_alnum c H).
Qed.

Lemma slugify_empty s : slugify s = EmptyString ↔ has_alnum s = false.
Proof.
  split.
  - intros H. by rewrite <-has_alnum_slugify, H.
  - intros H. apply slug_without_alnum; [apply slugify_is_slug|].
    by rewrite has_alnum_slugify.
Qed.

(** The flag of the substitution only decides about one leading dash. *)
Lemma lstrip_lower_re_sub_flag b1 b2 s :
  lstrip (lower (re_sub_from is_alnum b1 s))
  = lstrip (lower (re_sub_from is_alnum b2 s)).
Proof.
  destruct s as [|c s]; [done|]. simpl.
  destruct (is_alnum c); [done|]. by destruct b1, b2.
Qed.

Lemma lstrip_lower_re_sub_lead a : ∀ b s,
  has_alnum a = false →
  lstrip (lower (re_sub_from is_alnum b (a +:+ s)))
  = lstrip (lower (re_sub_from is_alnum false s)).
Proof.
  induction a as [|c a IH]; intros b s Ha.
  - rewrite string_app_nil_l. apply lstrip_lower_re_sub_flag.
  - simpl in Ha. apply orb_false_iff in Ha as [Hc Ha].
    rewrite string_app_cons. simpl. rewrite Hc.
    destruct b; simpl; by rewrite IH.
Qed.

Lemma re_sub_without_alnum b t :
  has_alnum t = false →
  re_sub_from is_alnum b t = EmptyString
  ∨ re_sub_from is_alnum b t = String dash EmptyString.
Proof.
  revert b. induction t as [|c t IH]; intros b Ht; [by left|].
  simpl in Ht. apply orb_false_iff in Ht as [Hc Ht]. simpl. rewrite Hc.
  destruct b; [by apply IH|]. right.
  specialize (IH true Ht).
  assert (re_sub_from is_alnum true t = EmptyString) as ->; [|done].
  destruct IH as [?|Hd]; [done|].
  destruct (re_sub_collapsed true t) as [_ Hno]. specialize (Hno eq_refl).
  by rewrite Hd in Hno.
Qed.

Lemma re_sub_tail t : ∀ b s,
  has_alnum t = false →
  ∃ u, (u = EmptyString ∨ u = String dash EmptyString)
       ∧ re_sub_from is_alnum b (s +:+ t) = re_sub_from is_alnum b s +:+ u.
Proof.
  intros b s Ht. revert b. induction s as [|c s IH]; intros b.
  - rewrite string_app_nil_l. exists (re_sub_from is_alnum b t).
    split; [by apply re_sub_without_alnum|done].
  - rewrite string_app_cons. simpl. destruct (is_alnum c).
    + destruct (IH false) as (u & Hu & ->). by exists u.
    + destruct (IH true) as (u & Hu & ->). exists u. by destruct b.
Qed.

Lemma lower_app (a b : string) : lower (a +:+ b) = lower a +:+ lower b.
Proof.
  induction a as [|c a IH]; [done|].
  rewrite string_app_cons. simpl. by rewrite IH.
Qed.

Lemma rstrip_app_dash s : rstrip (s +:+ String dash EmptyString) = rstrip s.
Proof.
  induction s as [|c s IH]; [done|].
  by rewrite string_app_cons, !rstrip_cons, IH.
Qed.

Lemma strip_app_dash s : strip (s +:+ String dash EmptyString) = strip s.
Proof.
  unfold strip. induction s as [|c s IH]; [done|].
  rewrite string_app_cons. simpl. destruct (Ascii.eqb c dash); [done|].
  by rewrite <-string_app_cons, rstrip_app_dash.
Qed.

Lemma slugify_lead a s : has_alnum a = false → slugify (a +:+ s) = slugify s.
Proof.
  intros Ha. unfold slugify, strip, SLUGIFY_RE_sub.
  by rewrite lstrip_lower_re_sub_lead.
Qed.

Lemma slugify_tail s t : has_alnum t = false → slugify (s +:+ t) = slugify s.
Proof.
  intros Ht. unfold slugify, SLUGIFY_RE_sub.
  destruct (re_sub_tail t false s Ht) as (u & [->| ->] & ->).
  - by rewrite string_app_nil_r.
  - rewrite lower_app. apply strip_app_dash.
Qed.

End SlugMargins.

Section SlugSuffix.
Import Slugify SlugSpec SlugShape SlugText.

(** The decimal rendering of the counter: digits, at least one. *)
Lemma pretty_N_go_digits (x : N) : ∀ s,
  all_slug_alnum s = true → all_slug_alnum (pretty_N_go x s) = true.
Proof.
  induction (N.lt_wf_0 x) as [x _ IH]. intros s Hs.
  destruct (decide (x = 0%N)) as [->|Hx]; [by rewrite pretty_N_go_0|].
  rewrite pretty_N_go_step by lia. apply IH; [apply N.div_lt; lia|].
  simpl. rewrite Hs, andb_true_r.
  unfold pretty_N_char. by repeat case_match.
Qed.

Lemma pretty_N_go_nonempty (x : N) : ∀ s,
  s ≠ EmptyString → pretty_N_go x s ≠ EmptyString.
Proof.
  induction (N.lt_wf_0 x) as [x _ IH]. intros s Hs.
  destruct (decide (x = 0%N)) as [->|Hx]; [by rewrite pretty_N_go_0|].
  rewrite pretty_N_go_step by lia. apply IH; [apply N.div_lt; lia|done].
Qed.

Lemma pretty_nat_digits (n : nat) :
  all_slug_alnum (pretty n) = true ∧ pretty n ≠ EmptyString.
Proof.
  unfold pretty, pretty_nat, pretty, pretty_N.
  case_decide as Hn; [done|].
  rewrite pretty_N_go_step by lia. split.
  - apply pretty_N_go_digits. simpl. rewrite andb_true_r.
    unfold pretty_N_char. by repeat case_match.
  - by apply pretty_N_go_nonempty.
Qed.

Lemma all_slug_alnum_collapsed s :
  all_slug_alnum s = true → collapsed is_slug_alnum s = true.
Proof.
  induction s as [|c s IH]; simpl; [done|].
  intros [Hc Hs]%andb_true_iff. rewrite (IH Hs), andb_true_r.
  by rewrite (alnum_not_dash c (slug_alnum_alnum c Hc)).
Qed.

Lemma all_slug_alnum_no_dash s :
  all_slug_alnum s = true →
  starts_with_dash s = false ∧ ends_with_dash s = false.
Proof.
  induction s as [|c s IH]; simpl; [done|].
  intros [Hc Hs]%andb_true_iff.
  pose proof (alnum_not_dash c (slug_alnum_alnum c Hc)) as Hd.
  split; [done|]. destruct s; [done|]. by apply IH.
Qed.

Lemma starts_with_dash_app (a b : string) :
  a ≠ EmptyString → starts_with_dash (a +:+ b) = starts_with_dash a.
Proof. by destruct a. Qed.

Lemma ends_with_dash_app (a b : string) :
  b ≠ EmptyString → ends_with_dash (a +:+ b) = ends_with_dash b.
Proof.
  intros Hb. induction a as [|c a IH]; [done|].
  rewrite string_app_cons. simpl.
  destruct (a +:+ b) eqn:Hab; [|done].
  destruct a; [|done]. by rewrite string_app_nil_l in Hab.
Qed.

Lemma collapsed_app P (a b : string) :
  collapsed P a = true → ends_with_dash a = false → collapsed P b = true →
  collapsed P (a +:+ b) = true.
Proof.
  intros Ha He Hb. induction a as [|c a IH]; [done|].
  rewrite string_app_cons. simpl in *.
  apply andb_true_iff in Ha as [Hc Ha]. destruct a as [|c' a].
  - rewrite string_app_nil_l, Hb, andb_true_r. by rewrite He in *.
  - rewrite IH, andb_true_r by done. by rewrite starts_with_dash_app.
Qed.

(** A slug with a counter appended is a slug again, unless it is empty. *)
Lemma suffixed_is_slug base n :
  is_slug base = true → base ≠ EmptyString → is_slug (suffixed base n) = true.
Proof.
  unfold is_slug, suffixed.
  intros [[Hc Hs]%andb_true_iff He%negb_true_iff]%andb_true_iff Hbase.
  destruct (pretty_nat_digits n) as [Hd Hne].
  destruct (all_slug_alnum_no_dash _ Hd) as [Hds Hde].
  assert (String dash EmptyString +:+ pretty n ≠ EmptyString) as Hne' by done.
  rewrite starts_with_dash_app, Hs by done.
  rewrite !ends_with_dash_app, Hde by done.
  rewrite collapsed_app; [done..|].
  rewrite string_app_cons, string_app_nil_l. simpl.
  by rewrite Hds, all_slug_alnum_collapsed.
Qed.

End SlugSuffix.

Section SlugExtras.
Import Slugify SlugSpec SlugShape SlugText.

(** X1. Every slug consists of lowercase ASCII letters, digits and dashes,
    with no dash at either end and no two dashes in a row. *)
Theorem slugify_output_shape (s : string) : is_slug (slugify s) = true.
Proof. apply slugify_is_slug. Qed.

(** X2. The slug is empty exactly when the text has no ASCII letter or
    digit. *)
Theorem slugify_empty_iff (s : string) :
  slugify s = EmptyString ↔ has_alnum s = false.
Proof. apply slugify_empty. Qed.

(** X3. Characters other than ASCII letters and digits at the start and
    at the end of the text do not show in the slug. *)
Theorem slugify_ignores_margins (a s b : string) :
  has_alnum a = false → has_alnum b = false →
  slugify (a +:+ s +:+ b) = slugify s.
Proof. intros Ha Hb. by rewrite slugify_lead, slugify_tail. Qed.

Lemma slugify_ignores_margins_witness :
  slugify (" ¡" +:+ "Hello Joel" +:+ "!? ") = slugify "Hello Joel".
Proof.
  apply (slugify_ignores_margins " ¡" "Hello Joel" "!? "); reflexivity.
Defined.

(** X4. When the title has an ASCII letter or digit, the id made by
    [slugify_unique] is a slug itself and [slugify] leaves it as it is.
    When it has none and the empty id is in use, the id made is a counter
    behind a leading dash. *)
Theorem slugify_unique_shape (text : string) (used : list string) :
  (has_alnum text = true →
     is_slug (slugify_unique text used) = true
     ∧ slugify (slugify_unique text used) = slugify_unique text used)
  ∧ (has_alnum text = false → EmptyString ∈ used →
     ∃ n, 2 ≤ n ∧ slugify_unique text used = "-" +:+ pretty n).
Proof.
  destruct (slugify_unique_candidate text used) as (n & Hn & Heq & Hnot & _).
  split.
  - intros Htext.
    assert (is_slug (slugify_unique text used) = true) as Hslug.
    { rewrite Heq. unfold candidate. case_bool_decide; [apply slugify_is_slug|].
      apply suffixed_is_slug; [apply slugify_is_slug|].
      intros Hempty%slugify_empty. congruence. }
    split; [done|]. by apply slugify_fixes_slugs.
  - intros Htext%slugify_empty Hused. exists n.
    destruct (decide (n = 1)) as [->|]; [by rewrite Heq, Htext in Hnot|].
    split; [lia|]. rewrite Heq, Htext. unfold candidate, suffixed.
    case_bool_decide; [lia|done].
Qed.

End SlugExtras.

(** * More on the object model *)

Section Dicts.
Import Models Frames.

Lemma without_fresh (d : list (string * nat)) k : k ∉ keys d → without k d = d.
Proof.
  unfold without, keys. induction d as [|[k' v'] d IH]; [done|].
  rewrite fmap_cons. intros [Hne Hd]%not_elem_of_cons.
  simpl in Hne. rewrite filter_cons_True by (simpl; congruence). by rewrite IH.
Qed.

Lemma keys_without (d : list (string * nat)) k : k ∉ keys (without k d).
Proof.
  unfold without, keys. intros ([k' v'] & -> & [Hne _]%list_elem_of_filter)%list_elem_of_fmap.
  by apply Hne.
Qed.

Lemma delitem_without (d : list (string * nat)) k :
  NoDup (keys d) → k ∈ keys d → delitem d k = Some (without k d).
Proof.
  unfold keys. induction d as [|[k' v'] d IH]; [by intros _ ?%elem_of_nil|].
  rewrite fmap_cons. intros [Hk' Hnodup]%NoDup_cons Hk. simpl.
  destruct (String.eqb_spec k' k) as [->|Hne].
  - unfold without. rewrite filter_cons_False by (simpl; auto).
    f_equal. symmetry. by apply without_fresh.
  - apply elem_of_cons in Hk as [?|Hk]; [done|].
    rewrite (IH Hnodup Hk). simpl. unfold without.
    by rewrite filter_cons_True by done.
Qed.

Lemma delitem_missing (d : list (string * nat)) k : k ∉ keys d → delitem d k = None.
Proof.
  unfold keys. induction d as [|[k' v'] d IH]; [done|].
  rewrite fmap_cons. intros [Hne Hd]%not_elem_of_cons. simpl.
  destruct (String.eqb_spec k' k) as [->|_]; [done|]. by rewrite IH.
Qed.

Lemma delitem_app_fresh (d : list (string * nat)) k v :
  k ∉ keys d → delitem (d ++ [(k, v)]) k = Some d.
Proof.
  unfold keys. induction d as [|[k' v'] d IH]; simpl.
  - intros _. by rewrite String.eqb_refl.
  - intros [Hne Hd]%not_elem_of_cons.
    destruct (String.eqb_spec k' k) as [->|_]; [done|]. by rewrite IH.
Qed.

Lemma getitem_missing (d : list (string * nat)) k : k ∉ keys d → getitem d k = None.
Proof.
  unfold keys. induction d as [|[k' v'] d IH]; [done|].
  rewrite fmap_cons. intros [Hne Hd]%not_elem_of_cons. simpl.
  destruct (String.eqb_spec k' k) as [->|_]; [done|]. by apply IH.
Qed.

Lemma getitem_Some_key (d : list (string * nat)) k v : getitem d k = Some v → k ∈ keys d.
Proof.
  unfold keys. induction d as [|[k' v'] d IH]; [done|]. simpl.
  destruct (String.eqb_spec k' k) as [->|_]; [left|right; auto].
Qed.

Lemma getitem_setitem (d : list (string * nat)) k v k' :
  getitem (setitem d k v) k' = if String.eqb k k' then Some v else getitem d k'.
Proof.
  induction d as [|[k0 v0] d IH]; simpl; [done|].
  destruct (String.eqb_spec k0 k) as [->|Hne]; simpl.
  - by destruct (String.eqb_spec k k').
  - destruct (String.eqb_spec k0 k') as [->|_]; [|done].
    by destruct (String.eqb_spec k k').
Qed.

Lemma getitem_without (d : list (string * nat)) k k' :
  k' ≠ k → getitem (without k d) k' = getitem d k'.
Proof.
  intros Hne. unfold without. induction d as [|[k0 v0] d IH]; [done|].
  rewrite filter_cons. case_decide as Hk0; simpl in *.
  - by rewrite IH.
  - rewrite IH. destruct (String.eqb_spec k0 k') as [->|_]; [|done].
    by destruct Hk0.
Qed.

Lemma keys_setitem_present (d : list (string * nat)) k v :
  k ∈ keys d → keys (setitem d k v) = keys d.
Proof.
  unfold keys. induction d as [|[k' v'] d IH]; [by intros ?%elem_of_nil|].
  simpl. destruct (String.eqb_spec k' k) as [->|Hne]; [done|].
  intros [?|Hk]%elem_of_cons; [done|]. csimpl. by rewrite IH.
Qed.

Lemma set_data_same c : set_data c (cat_data c) = c.
Proof. by destruct c. Qed.

Lemma set_data_twice c d d' : set_data (set_data c d) d' = set_data c d'.
Proof. done. Qed.

End Dicts.

Section DeleteMore.
Import Models Tracker Trees Frames.

Lemma parent_delitem_run (h : heap) parent po d k :
  h !! parent = Some po → mapping_data po = Some d →
  NoDup (keys d) → k ∈ keys d →
  parent_delitem parent k h
  = (Ok tt, <[parent := with_data po (without k d)]> h).
Proof.
  intros H Hd Hnodup Hk. unfold parent_delitem, bind, get_obj. rewrite H.
  destruct po as [d0|c0|t0]; simpl in Hd; [| |done]; injection Hd as ->;
    by rewrite delitem_without.
Qed.

Lemma parent_delitem_missing (h : heap) parent po d k :
  h !! parent = Some po → mapping_data po = Some d → k ∉ keys d →
  parent_delitem parent k h = (Raise (KeyError k), h).
Proof.
  intros H Hd Hk. unfold parent_delitem, bind, get_obj. rewrite H.
  destruct po as [d0|c0|t0]; simpl in Hd; [| |done]; injection Hd as ->;
    by rewrite delitem_missing.
Qed.

Lemma subscript_run (h : heap) a o d b :
  h !! a = Some o → mapping_data o = Some d →
  subscript a b h
  = match getitem d b with
    | Some v => (Ok v, h)
    | None => (Raise (KeyError b), h)
    end.
Proof.
  intros H Hd. unfold subscript, bind, get_obj. rewrite H.
  destruct o as [d0|[]|t0]; simpl in Hd; [| |done]; injection Hd as ->;
    by destruct (getitem d b).
Qed.

Lemma with_data_data o d d' :
  mapping_data o = Some d → mapping_data (with_data o d') = Some d'.
Proof. by destruct o. Qed.

Lemma lookup_insert_self (h : list obj) l o o' :
  h !! l = Some o → <[l := o']> h !! l = Some o'.
Proof. intros H. apply list_lookup_insert_eq. by eapply lookup_lt_Some. Qed.

(** The heap after the key [k] has been deleted from the mapping at
    [parent]: the key is gone, and deleting it again is a [KeyError]. *)
Lemma after_delitem (h : heap) parent po d k :
  h !! parent = Some po → mapping_data po = Some d →
  let h' := <[parent := with_data po (without k d)]> h in
  subscript parent k h' = (Raise (KeyError k), h')
  ∧ parent_delitem parent k h' = (Raise (KeyError k), h').
Proof.
  intros H Hd h'.
  assert (h' !! parent = Some (with_data po (without k d))) as H'.
  { by eapply lookup_insert_self. }
  pose proof (with_data_data po d (without k d) Hd) as Hd'. split.
  - rewrite (subscript_run h' parent _ _ k H' Hd').
    by rewrite getitem_missing by apply keys_without.
  - apply (parent_delitem_missing h' parent _ _ k H' Hd'), keys_without.
Qed.

(** X5. A category that its parent holds under its id, and that is empty
    or deleted with [recurse]: [delete] takes exactly that key out of the
    parent's mapping and changes nothing else, the deleted category and
    what is below it included.  The parent then no longer has the key, and
    deleting the same category once more raises a [KeyError], its
    [__parent__] being kept. *)
Theorem Category_delete_removes (h : heap) self c parent po d recurse :
  h !! self = Some (CategoryObj c) →
  cat_parent c = Some parent →
  h !! parent = Some po → mapping_data po = Some d →
  NoDup (keys d) → cat_id c ∈ keys d →
  recurse = true ∨ cat_data c = [] →
  let h' := <[parent := with_data po (without (cat_id c) d)]> h in
  Category_delete self recurse h = (Ok tt, h')
  ∧ subscript parent (cat_id c) h' = (Raise (KeyError (cat_id c)), h')
  ∧ (self ≠ parent →
     Category_delete self recurse h' = (Raise (KeyError (cat_id c)), h')).
Proof.
  intros H Hparent Hpo Hd Hnodup Hk Hok h'.
  assert (negb (bool_decide (keys (cat_data c) = [])) && negb recurse = false)
    as Hguard.
  { destruct Hok as [->| ->]; [apply andb_false_r|done]. }
  destruct (after_delitem h parent po d (cat_id c) Hpo Hd) as [Hsub Hagain].
  split_and!.
  - unfold Category_delete, bind.
    rewrite (get_category_run h self c H), Hparent, Hguard.
    by apply parent_delitem_run.
  - done.
  - intros Hne. unfold Category_delete, bind.
    rewrite (get_category_run h' self c), Hparent, Hguard; [done|].
    unfold h'. by rewrite list_lookup_insert_ne.
Qed.

Lemma Category_delete_removes_witness :
  let h' := [ RootObj [("work", 1)];
              CategoryObj (mkCategory (Some 0) "work" "Work" "" []);
              CategoryObj (mkCategory (Some 1) "projects" "Projects" ""
                             [("design", 3)]);
              TaskObj (mkTask (Some 2) "design" "Design" "" (Some 90%Z)) ] in
  Category_delete 2 true Scenario.tree = (Ok tt, h')
  ∧ subscript 1 "projects" h' = (Raise (KeyError "projects"), h')
  ∧ (2 ≠ 1 → Category_delete 2 true h' = (Raise (KeyError "projects"), h')).
Proof.
  apply (Category_delete_removes Scenario.tree 2
           (mkCategory (Some 1) "projects" "Projects" "" [("design", 3)]) 1
           (CategoryObj (mkCategory (Some 0) "work" "Work" "" [("projects", 2)]))
           [("projects", 2)] true).
  - reflexivity.
  - reflexivity.
  - reflexivity.
  - reflexivity.
  - apply NoDup_singleton.
  - apply list_elem_of_singleton. reflexivity.
  - left. reflexivity.
Defined.

(** X6. A task that its parent holds under its id: [Task.delete()] takes
    exactly that key out of the parent's mapping and changes nothing else.
    The parent then no longer has the key, and deleting the same task once
    more raises a [KeyError] (not the exception for a missing parent). *)
Theorem Task_delete_removes (h : heap) self t parent po d :
  h !! self = Some (TaskObj t) →
  task_parent t = Some parent →
  h !! parent = Some po → mapping_data po = Some d →
  NoDup (keys d) → task_id t ∈ keys d →
  let h' := <[parent := with_data po (without (task_id t) d)]> h in
  Task_delete self h = (Ok tt, h')
  ∧ subscript parent (task_id t) h' = (Raise (KeyError (task_id t)), h')
  ∧ Task_delete self h' = (Raise (KeyError (task_id t)), h').
Proof.
  intros H Hparent Hpo Hd Hnodup Hk h'.
  destruct (after_delitem h parent po d (task_id t) Hpo Hd) as [Hsub Hagain].
  split_and!.
  - unfold Task_delete, bind. rewrite (get_task_run h self t H), Hparent.
    by apply parent_delitem_run.
  - done.
  - unfold Task_delete, bind.
    rewrite (get_task_run h' self t), Hparent; [done|].
    unfold h'. rewrite list_lookup_insert_ne; [done|].
    intros <-. rewrite Hpo in H. injection H as ->. done.
Qed.

Lemma Task_delete_removes_witness :
  let h' := [ RootObj [("work", 1)];
              CategoryObj (mkCategory (Some 0) "work" "Work" "" [("projects", 2)]);
              CategoryObj (mkCategory (Some 1) "projects" "Projects" "" []);
              TaskObj (mkTask (Some 2) "design" "Design" "" (Some 90%Z)) ] in
  Task_delete 3 Scenario.tree = (Ok tt, h')
  ∧ subscript 2 "design" h' = (Raise (KeyError "design"), h')
  ∧ Task_delete 3 h' = (Raise (KeyError "design"), h').
Proof.
  apply (Task_delete_removes Scenario.tree 3
           (mkTask (Some 2) "design" "Design" "" (Some 90%Z)) 2
           (CategoryObj (mkCategory (Some 1) "projects" "Projects" ""
                           [("design", 3)]))
           [("design", 3)]).
  - reflexivity.
  - reflexivity.
  - reflexivity.
  - reflexivity.
  - apply NoDup_singleton.
  - apply list_elem_of_singleton. reflexivity.
Defined.

End DeleteMore.

Section AddMore.
Import Models Tracker Trees Frames.

Lemma resolved_id_fresh c title id :
  (∀ i, id = Some i → i ∉ keys (cat_data c)) →
  resolved_id c title id ∉ keys (cat_data c).
Proof.
  intros Hid. destruct id as [i|]; simpl; [by apply Hid|].
  apply slugify_unique_fresh_key.
Qed.

Lemma explicit_id_not_contained c (id : option string) :
  (∀ i, id = Some i → i ∉ keys (cat_data c)) →
  match id with Some i => contains (cat_data c) i | None => false end = false.
Proof. intros Hid. destruct id as [i|]; [|done]. by apply contains_false, Hid. Qed.

(** Deleting from the parent what an add has just put there. *)
Lemma after_add_delitem (h : heap) self c k o :
  h !! self = Some (CategoryObj c) → k ∉ keys (cat_data c) →
  parent_delitem self k (after_add h self c k o) = (Ok tt, h ++ [o]).
Proof.
  intros H Hk. unfold parent_delitem, bind, get_obj.
  rewrite after_add_self by done. cbn [cat_data set_data].
  rewrite setitem_fresh, delitem_app_fresh by done.
  unfold put_obj, after_add. rewrite set_data_twice, set_data_same.
  rewrite list_insert_insert_eq, list_insert_id; [done|].
  by apply lookup_alloc_old.
Qed.

(** X7. Adding a category or a task and deleting it right away leaves
    the heap as it was, but for the new object, which stays behind
    unreferenced: the parent's mapping is the one before the add, in the
    same order. *)
Theorem add_then_delete_restores (h : heap) self c title description id mins :
  h !! self = Some (CategoryObj c) →
  (∀ i, id = Some i → i ∉ keys (cat_data c)) →
  let k := resolved_id c title id in
  (∃ h1, add_category self title description id h = (Ok (length h), h1)
         ∧ Category_delete (length h) false h1
           = (Ok tt, h ++ [CategoryObj (mkCategory (Some self) k title
                                          description [])]))
  ∧ (is_None mins || isinstance_int mins = true →
     ∃ h1, add_task self title description id mins h = (Ok (length h), h1)
           ∧ Task_delete (length h) h1
             = (Ok tt, h ++ [TaskObj (mkTask (Some self) k title description
                                        (stored_mins mins))])).
Proof.
  intros H Hid k.
  pose proof (resolved_id_fresh c title id Hid) as Hk.
  pose proof (explicit_id_not_contained c id Hid) as Hc.
  split.
  - eexists. rewrite (add_category_run h self c) by done. rewrite Hc.
    split; [done|]. unfold Category_delete, bind.
    erewrite get_category_run by by apply after_add_new.
    simpl. by apply after_add_delitem.
  - intros Hmins. eexists. rewrite (add_task_run h self c) by done. rewrite Hc.
    assert (negb (is_None mins) && negb (isinstance_int mins) = false) as ->.
    { by destruct (is_None mins), (isinstance_int mins). }
    split; [done|]. unfold Task_delete, bind.
    erewrite get_task_run by by apply after_add_new.
    simpl. by apply after_add_delitem.
Qed.

Lemma add_then_delete_restores_witness :
  (∃ h1, add_category 1 "Projects" "" None Scenario.start = (Ok 2, h1)
         ∧ Category_delete 2 false h1
           = (Ok tt, Scenario.start
                     ++ [CategoryObj (mkCategory (Some 1) "projects" "Projects"
                                        "" [])]))
  ∧ (true = true →
     ∃ h1, add_task 1 "Projects" "" None (PyInt 7) Scenario.start = (Ok 2, h1)
           ∧ Task_delete 2 h1
             = (Ok tt, Scenario.start
                       ++ [TaskObj (mkTask (Some 1) "projects" "Projects" ""
                                      (Some 7%Z))])).
Proof.
  apply (add_then_delete_restores Scenario.start 1
           (mkCategory (Some 0) "work" "Work" "" []) "Projects" "" None
           (PyInt 7)).
  - reflexivity.
  - intros i Hi. discriminate Hi.
Defined.

Lemma getitem_app_found (d d' : list (string * nat)) k v :
  getitem d k = Some v → getitem (d ++ d') k = Some v.
Proof.
  induction d as [|[k0 v0] d IH]; [done|]. simpl.
  by destruct (String.eqb k0 k).
Qed.

Lemma getitem_app_fresh (d : list (string * nat)) k v :
  k ∉ keys d → getitem (d ++ [(k, v)]) k = Some v.
Proof.
  unfold keys. induction d as [|[k0 v0] d IH]; simpl.
  - by rewrite String.eqb_refl.
  - intros [Hne Hd]%not_elem_of_cons.
    destruct (String.eqb_spec k0 k) as [->|_]; [done|]. by apply IH.
Qed.

(** X8. When [add_category] or [add_task] returns, the parent finds the
    new object under the id settled on, still finds every earlier child
    under its key, and no other object has changed. *)
Theorem add_keeps_and_finds (h : heap) self c title description id mins new h' :
  h !! self = Some (CategoryObj c) →
  add_category self title description id h = (Ok new, h')
  ∨ add_task self title description id mins h = (Ok new, h') →
  subscript self (resolved_id c title id) h' = (Ok new, h')
  ∧ (∀ k v, getitem (cat_data c) k = Some v → subscript self k h' = (Ok v, h'))
  ∧ (∀ l o, l ≠ self → h !! l = Some o → h' !! l = Some o).
Proof.
  intros H Hadd.
  assert (new = length h
          ∧ (resolved_id c title id ∉ keys (cat_data c))
          ∧ ∃ o, h' = after_add h self c (resolved_id c title id) o)
    as (-> & Hk & o & ->).
  { destruct Hadd as [Hadd|Hadd].
    - rewrite (add_category_run h self c) in Hadd by done.
      destruct id as [i|]; simpl in *.
      + destruct (contains (cat_data c) i) eqn:Hc; [done|].
        injection Hadd as <- <-. apply contains_false in Hc. eauto.
      + injection Hadd as <- <-. eauto using slugify_unique_fresh_key.
    - rewrite (add_task_run h self c) in Hadd by done.
      destruct (negb (is_None mins) && negb (isinstance_int mins));
        destruct id as [i|]; simpl in *;
        try (destruct (contains (cat_data c) i) eqn:Hc); try done.
      + injection Hadd as <- <-. apply contains_false in Hc. eauto.
      + injection Hadd as <- <-. eauto using slugify_unique_fresh_key. }
  set (k := resolved_id c title id) in *.
  pose proof (after_add_self h self c k o H) as Hself.
  rewrite setitem_fresh in Hself by done.
  split_and!.
  - rewrite (subscript_run _ self _ _ k Hself eq_refl). simpl.
    by rewrite getitem_app_fresh.
  - intros k' v Hv. rewrite (subscript_run _ self _ _ k' Hself eq_refl). simpl.
    by rewrite (getitem_app_found _ _ k' v).
  - intros l o' Hne Hl. by apply after_add_other.
Qed.

Lemma add_keeps_and_finds_witness :
  let h' := [ RootObj [("work", 1)];
              CategoryObj (mkCategory (Some 0) "work" "Work" ""
                             [("projects", 2); ("projects-2", 4)]);
              CategoryObj (mkCategory (Some 1) "projects" "Projects" ""
                             [("design", 3)]);
              TaskObj (mkTask (Some 2) "design" "Design" "" (Some 90%Z));
              TaskObj (mkTask (Some 1) "projects-2" "Projects!" "" None) ] in
  subscript 1 "projects-2" h' = (Ok 4, h')
  ∧ (∀ k v, getitem [("projects", 2)] k = Some v → subscript 1 k h' = (Ok v, h'))
  ∧ (∀ l o, l ≠ 1 → Scenario.tree !! l = Some o → h' !! l = Some o).
Proof.
  apply (add_keeps_and_finds Scenario.tree 1
           (mkCategory (Some 0) "work" "Work" "" [("projects", 2)])
           "Projects!" "" None PyNone 4).
  - reflexivity.
  - right. vm_compute. reflexivity.
Defined.

End AddMore.

Section RecursiveCategories.
Import Models Trees Frames.

Context (h : heap).

Lemma categories_S fuel l c recurse :
  h !! l = Some (CategoryObj c) →
  categories (S fuel) h l recurse
  = List.concat (A:=nat) <$>
      mapM (categories_item h (λ v, categories fuel h v true) recurse)
        (sorted (cat_data c)).
Proof. intros H. simpl. by rewrite H. Qed.

(** With fuel for the depth of the tree, the recursive listing of
    categories returns every category below the category, each once. *)
Lemma categories_enumerates d : ∀ l c fuel,
  h !! l = Some (CategoryObj c) → tree_under h d l → d ≤ fuel →
  ∃ cs, categories fuel h l true = Some cs ∧ NoDup cs
        ∧ ∀ x, x ∈ cs ↔ (∃ n, reach_n h (S n) l x) ∧ is_category h x = true.
Proof.
  induction d as [|d IH]; intros l c fuel Hc Htree Hfuel.
  { inversion Htree; congruence. }
  destruct fuel as [|fuel]; [lia|].
  inversion Htree as [? ? t Ht|? ? c' Hc' [Hnodup Howns] Hsub]; subst; [congruence|].
  assert (c' = c) as -> by congruence.
  rewrite Forall_forall in Howns.
  set (item := categories_item h (λ v, categories fuel h v true) true).
  assert (∀ kv, kv ∈ cat_data c →
            ∃ sub, item kv = Some sub ∧ NoDup sub
                   ∧ ∀ x, x ∈ sub ↔ (∃ n, reach_n h n kv.2 x)
                                     ∧ is_category h x = true)
    as Hitem.
  { intros [k v] Hkv. destruct (Howns _ Hkv) as (o & Ho & Hid & Hparent).
    simpl in Ho, Hid, Hparent |- *. unfold item, categories_item. cbn [snd].
    rewrite Ho.
    assert (tree_under h d v) as Htreev.
    { apply Hsub, elem_of_values. by exists k. }
    destruct o as [|c'|t']; [done|..].
    - destruct (IH v c' fuel Ho Htreev) as (cs & Hcs & Hnd & Hmem); [lia|].
      rewrite Hcs. exists (v :: cs). split_and!; [done| |].
      + apply NoDup_cons. split; [|done].
        intros [[n Hn] _]%Hmem. by eapply (tree_under_acyclic h d v n).
      + intros x. rewrite elem_of_cons, Hmem. split.
        * intros [->|[[n Hn] Hx]].
          -- split; [by exists 0|]. unfold is_category. by rewrite Ho.
          -- split; [by exists (S n)|done].
        * intros [[[|n] Hn] Hx]; [left; by simpl in Hn|right].
          split; [by exists n|done].
    - exists []. split_and!; [done|apply NoDup_nil_2|].
      intros x. split; [by intros ?%elem_of_nil|].
      intros [[[|n] Hn] Hx].
      + simpl in Hn. subst. unfold is_category in Hx. by rewrite Ho in Hx.
      + destruct Hn as (w & Hw & _). rewrite (children_task h v t' Ho) in Hw.
        by apply elem_of_nil in Hw. }
  rewrite (categories_S fuel l c true Hc). fold item.
  rewrite (mapM_default item).
  2:{ apply Forall_forall. intros kv Hkv. apply (proj1 (sorted_elem_of _ _)) in Hkv.
      destruct (Hitem kv Hkv) as (sub & -> & _). by eexists. }
  eexists. split; [done|]. split.
  - apply NoDup_concat_fmap.
    + apply (NoDup_fmap_1 fst). fold (keys (sorted (cat_data c))).
      by rewrite keys_sorted_Permutation.
    + intros kv Hkv. apply (proj1 (sorted_elem_of _ _)) in Hkv.
      by destruct (Hitem kv Hkv) as (sub & -> & ? & _).
    + intros [k1 v1] [k2 v2] x Hkv1 Hkv2.
      apply (proj1 (sorted_elem_of _ _)) in Hkv1, Hkv2.
      destruct (Hitem _ Hkv1) as (sub1 & -> & _ & Hmem1).
      destruct (Hitem _ Hkv2) as (sub2 & -> & _ & Hmem2).
      simpl. intros [[a Ha] _]%Hmem1 [[b Hb] _]%Hmem2. simpl in Ha, Hb.
      assert (v1 = v2) as ->.
      { eapply (subtrees_disjoint h (S d) l v1 v2 a b); eauto.
        - rewrite (children_category h l c Hc). apply elem_of_values. by exists k1.
        - rewrite (children_category h l c Hc). apply elem_of_values. by exists k2. }
      destruct (Howns _ Hkv1) as (o1 & Ho1 & Hid1 & _).
      destruct (Howns _ Hkv2) as (o2 & Ho2 & Hid2 & _).
      simpl in *. congruence.
  - intros x. rewrite elem_of_concat_fmap. split.
    + intros (kv & Hkv & Hx). apply (proj1 (sorted_elem_of _ _)) in Hkv.
      destruct (Hitem kv Hkv) as (sub & Hsome & _ & Hmem).
      rewrite Hsome in Hx. simpl in Hx. apply Hmem in Hx as [[n Hn] Hcat].
      split; [|done]. exists n, kv.2. split; [|done].
      rewrite (children_category h l c Hc). apply elem_of_values.
      exists kv.1. by destruct kv.
    + intros [(n & v & Hv & Hn) Hcat].
      rewrite (children_category h l c Hc) in Hv.
      apply elem_of_values in Hv as [k Hkv]. exists (k, v). split.
      { by apply sorted_elem_of. }
      destruct (Hitem _ Hkv) as (sub & -> & _ & Hmem). simpl.
      apply Hmem. split; [by exists n|done].
Qed.

End RecursiveCategories.

Section ListingExtras.
Import Models Trees Frames.

(** X9. For a category at the top of a tree of depth at most [d] and with
    fuel for that depth, the recursive listing of categories returns the
    categories reachable under it, each once, and not the category
    itself. *)
Theorem categories_lists_descendants (h : heap) d self c fuel :
  h !! self = Some (CategoryObj c) →
  tree_under h d self →
  d ≤ fuel →
  ∃ cs, categories fuel h self true = Some cs ∧ NoDup cs
        ∧ (∀ x, x ∈ cs ↔ reachable h self x ∧ is_category h x = true)
        ∧ (self ∉ cs).
Proof.
  intros Hc Htree Hfuel.
  destruct (categories_enumerates h d self c fuel Hc Htree Hfuel)
    as (cs & Hcs & Hnodup & Hmem).
  exists cs. split_and!; [done..| |].
  - intros x. by rewrite reachable_reach_n.
  - intros [[n Hn] _]%Hmem. by eapply (tree_under_acyclic h d self n).
Qed.

End ListingExtras.

Section TotalExtras.
Import Models Trees Frames.

Lemma unordered_is_tree : tree_under Scenario.unordered 2 1.
Proof.
  eapply tree_category; [reflexivity| |].
  - split.
    + apply (bool_decide_unpack _). vm_compute. exact I.
    + repeat (apply Forall_cons_2 || apply Forall_nil_2);
        (eexists; split; [reflexivity|split; reflexivity]).
  - intros v Hv. unfold values in Hv. simpl in Hv.
    apply elem_of_cons in Hv as [->|Hv]; [by eapply tree_task|].
    apply elem_of_cons in Hv as [->|Hv].
    { eapply tree_category; [reflexivity| |].
      - split; [apply NoDup_nil_2|apply Forall_nil_2].
      - intros w Hw. by apply elem_of_nil in Hw. }
    apply elem_of_cons in Hv as [->|Hv].
    { eapply tree_category; [reflexivity| |].
      - split; [apply NoDup_singleton|].
        apply Forall_singleton. eexists. split; [reflexivity|split; reflexivity].
      - intros w Hw. apply list_elem_of_singleton in Hw as ->.
        by eapply tree_task. }
    apply elem_of_cons in Hv as [->|Hv]; [by eapply tree_task|].
    by apply elem_of_nil in Hv.
Qed.

Lemma categories_lists_descendants_witness :
  ∃ cs, categories 2 Scenario.unordered 1 true = Some cs ∧ NoDup cs
        ∧ (∀ x, x ∈ cs ↔ reachable Scenario.unordered 1 x
                          ∧ is_category Scenario.unordered x = true)
        ∧ (1 ∉ cs).
Proof.
  apply (categories_lists_descendants Scenario.unordered 2 1
           (mkCategory (Some 0) "box" "Box" ""
              [("b", 2); ("c", 3); ("a", 4); ("d", 5)]) 2).
  - reflexivity.
  - exact unordered_is_tree.
  - lia.
Defined.

Lemma foldr_add_Permutation (l1 l2 : list Z) :
  l1 ≡ₚ l2 → foldr Z.add 0%Z l1 = foldr Z.add 0%Z l2.
Proof.
  induction 1 as [|x l1 l2 _ IH|x y l|l1 l2 l3 _ IH1 _ IH2]; simpl; lia.
Qed.

Lemma sum_mins_app (h : heap) ts1 ts2 :
  sum_mins h (ts1 ++ ts2) = (sum_mins h ts1 + sum_mins h ts2)%Z.
Proof.
  unfold sum_mins. induction ts1 as [|t ts1 IH]; csimpl; [done|].
  rewrite IH. lia.
Qed.

Lemma sum_mins_concat {A} (h : heap) (g : A → list nat) (l : list A) :
  sum_mins h (List.concat (g <$> l))
  = foldr Z.add 0%Z ((λ x, sum_mins h (g x)) <$> l).
Proof.
  induction l as [|x l IH]; csimpl; [done|]. by rewrite sum_mins_app, IH.
Qed.

(** X10. Without [recurse], the total of a category is the sum of the
    durations of the tasks that are its direct children (unset counting
    as 0); tasks further down do not count. *)
Theorem total_mins_direct (h : heap) self c fuel :
  h !! self = Some (CategoryObj c) →
  Forall (owns h self) (cat_data c) →
  total_mins (S fuel) h self false
  = Some (sum_mins h (filter (λ v, is_task h v) (values (cat_data c)))).
Proof.
  intros H Howns.
  rewrite (total_mins_tasks h (S fuel) self false _ (tasks_flat h self c fuel H Howns)).
  f_equal. apply sum_mins_Permutation.
  by rewrite filter_values, values_sorted_Permutation.
Qed.

Lemma total_mins_direct_witness :
  total_mins 1 Scenario.unordered 1 false
  = Some (sum_mins Scenario.unordered
            (filter (λ v, is_task Scenario.unordered v) [2; 3; 4; 5])).
Proof.
  apply (total_mins_direct Scenario.unordered 1
           (mkCategory (Some 0) "box" "Box" ""
              [("b", 2); ("c", 3); ("a", 4); ("d", 5)]) 0).
  - reflexivity.
  - repeat (apply Forall_cons_2 || apply Forall_nil_2);
      (eexists; split; [reflexivity|split; reflexivity]).
Defined.

Lemma total_mins_is_Some (h : heap) fuel v recurse :
  is_Some (total_mins fuel h v recurse) → is_Some (tasks fuel h v recurse).
Proof.
  unfold total_mins. destruct (tasks fuel h v recurse); [by eexists|].
  by intros [? ?].
Qed.

(** X11. The recursive total of a category is the sum, over its children,
    of the duration of each task and of the recursive total of each
    category (whenever the children are there and the totals of the child
    categories come out with the fuel left). *)
Theorem total_mins_decomposes (h : heap) self c fuel :
  h !! self = Some (CategoryObj c) →
  (∀ v, v ∈ values (cat_data c) → is_Some (h !! v)) →
  (∀ v, v ∈ values (cat_data c) → is_category h v = true →
        is_Some (total_mins fuel h v true)) →
  total_mins (S fuel) h self true
  = Some (foldr Z.add 0%Z (child_total fuel h <$> values (cat_data c))).
Proof.
  intros H Hexists Htotals.
  set (item := tasks_item h (λ v, tasks fuel h v true) true).
  assert (∀ kv, kv ∈ cat_data c →
            ∃ sub, item kv = Some sub ∧ sum_mins h sub = child_total fuel h kv.2)
    as Hitem.
  { intros [k v] Hkv.
    assert (v ∈ values (cat_data c)) as Hv by (apply elem_of_values; by exists k).
    destruct (Hexists v Hv) as [o Ho].
    unfold item, tasks_item, child_total, is_task. cbn [snd]. rewrite Ho.
    destruct o as [d0|c0|t0].
    - exists []. split; [done|]. unfold total_mins. simpl.
      destruct fuel; simpl; by rewrite ?Ho.
    - destruct (total_mins_is_Some h fuel v true) as [ts Hts].
      { apply Htotals; [done|]. unfold is_category. by rewrite Ho. }
      exists ts. split; [done|].
      by rewrite (total_mins_tasks h fuel v true ts Hts).
    - exists [v]. split; [done|]. unfold sum_mins. simpl. lia. }
  set (g := λ kv, default [] (item kv)).
  assert (tasks (S fuel) h self true
          = Some (List.concat (g <$> sorted (cat_data c)))) as Htasks.
  { rewrite (tasks_S h fuel self c true H). fold item.
    rewrite (mapM_default item); [done|].
    apply Forall_forall. intros kv Hkv. apply (proj1 (sorted_elem_of _ _)) in Hkv.
    destruct (Hitem kv Hkv) as (sub & -> & _). by eexists. }
  rewrite (total_mins_tasks h (S fuel) self true _ Htasks). f_equal.
  rewrite sum_mins_concat.
  rewrite (foldr_add_Permutation _ ((λ kv, sum_mins h (g kv)) <$> cat_data c))
    by by rewrite sorted_Permutation.
  f_equal. unfold values. rewrite <-list_fmap_compose.
  apply list_fmap_ext. intros i kv Hkv. apply list_elem_of_lookup_2 in Hkv.
  destruct (Hitem kv Hkv) as (sub & Hsub & Heq). unfold g, compose.
  by rewrite Hsub.
Qed.

Lemma total_mins_decomposes_witness :
  total_mins 2 Scenario.unordered 1 true
  = Some (foldr Z.add 0%Z (child_total 1 Scenario.unordered <$> [2; 3; 4; 5])).
Proof.
  apply (total_mins_decomposes Scenario.unordered 1
           (mkCategory (Some 0) "box" "Box" ""
              [("b", 2); ("c", 3); ("a", 4); ("d", 5)]) 1).
  - reflexivity.
  - intros v Hv. unfold values in Hv. simpl in Hv.
    repeat (apply elem_of_cons in Hv as [->|Hv]; [eexists; reflexivity|]).
    by apply elem_of_nil in Hv.
  - intros v Hv Hcat. unfold values in Hv. simpl in Hv.
    repeat (apply elem_of_cons in Hv as [->|Hv];
            [first [discriminate Hcat|eexists; vm_compute; reflexivity]|]).
    by apply elem_of_nil in Hv.
Defined.

End TotalExtras.

(** * Paths *)

Section Paths.
Import Models Tracker Trees Frames Commands.

Lemma subscript_heap (h : heap) a b : subscript a b h = ((subscript a b h).1, h).
Proof.
  unfold subscript, bind, get_obj. destruct (h !! a) as [[d|[]|t]|]; try done;
    by destruct (getitem _ b).
Qed.

Lemma reduce_subscript_cons (h : heap) b path a :
  reduce_subscript (b :: path) a h
  = match (subscript a b h).1 with
    | Ok a' => reduce_subscript path a' h
    | Raise e => (Raise e, h)
    end.
Proof.
  simpl. unfold bind. rewrite (subscript_heap h a b).
  by destruct (subscript a b h).1.
Qed.

Lemma reduce_subscript_heap path : ∀ (h : heap) a,
  reduce_subscript path a h = ((reduce_subscript path a h).1, h).
Proof.
  induction path as [|b path IH]; intros h a; [done|].
  rewrite reduce_subscript_cons. destruct (subscript a b h).1; [apply IH|done].
Qed.

Lemma reduce_subscript_app path1 path2 : ∀ (h : heap) a,
  reduce_subscript (path1 ++ path2) a h
  = bind (reduce_subscript path1 a) (reduce_subscript path2) h.
Proof.
  induction path1 as [|b path1 IH]; intros h a; [done|].
  rewrite <-app_comm_cons, reduce_subscript_cons. unfold bind at 1.
  rewrite reduce_subscript_cons.
  destruct (subscript a b h).1 as [a'|e]; [|done]. apply IH.
Qed.

Lemma split_dots_cons c s :
  split_dots (String c s)
  = if Ascii.eqb c "."%char then EmptyString :: split_dots s
    else match split_dots s with
         | w :: ws => String c w :: ws
         | [] => [String c EmptyString]
         end.
Proof. done. Qed.

Lemma split_dots_not_nil s : split_dots s ≠ [].
Proof.
  induction s as [|c s IH]; [done|]. rewrite split_dots_cons.
  destruct (Ascii.eqb c "."%char); [done|]. by destruct (split_dots s).
Qed.

(** Splitting at a dot in the middle. *)
Lemma split_dots_app (p q : string) :
  split_dots (p +:+ "." +:+ q) = split_dots p ++ split_dots q.
Proof.
  induction p as [|c p IH].
  - by rewrite string_app_nil_l.
  - rewrite string_app_cons, !split_dots_cons, IH.
    destruct (Ascii.eqb c "."%char); [done|].
    pose proof (split_dots_not_nil p). by destruct (split_dots p).
Qed.

Lemma split_dots_no_dot s : Forall (λ w, has_dot w = false) (split_dots s).
Proof.
  induction s as [|c s IH]; [by repeat constructor|].
  rewrite split_dots_cons. destruct (Ascii.eqb c "."%char) eqn:Hc.
  - by constructor.
  - destruct (split_dots s) as [|w ws]; [by repeat constructor; simpl; rewrite Hc|].
    apply Forall_cons in IH as [Hw Hws]. constructor; [|done].
    simpl. by rewrite Hc.
Qed.

Lemma split_only_dots s :
  only_dots s = true → Forall (λ w, w = EmptyString) (split_dots s).
Proof.
  induction s as [|c s IH]; [by repeat constructor|].
  simpl. intros [-> Hs]%andb_true_iff. constructor; auto.
Qed.

(** The path of a text of dots (the empty text is one) has no segment. *)
Lemma traverse_only_dots (h : heap) root arg :
  only_dots arg = true → traverse root arg h = (Ok root, h).
Proof.
  intros Hdots. unfold traverse.
  assert (filter (λ p, p ≠ EmptyString) (split_dots arg) = []) as ->; [|done].
  pose proof (split_only_dots arg Hdots) as Hall.
  induction Hall as [|w ws -> _ IH]; [done|].
  by rewrite filter_cons_False by auto.
Qed.

(** X12. A path is followed one dot-separated part after the other:
    resolving [p.q] from the root is resolving [q] from what [p] resolves
    to, and fails as [p] fails if that fails.  The heap is never
    changed. *)
Theorem traverse_compose (h : heap) root (p q : string) :
  traverse root (p +:+ "." +:+ q) h
  = bind (traverse root p) (λ a, traverse a q) h
  ∧ (traverse root p h).2 = h.
Proof.
  unfold traverse. split.
  - by rewrite split_dots_app, filter_app, reduce_subscript_app.
  - by rewrite reduce_subscript_heap.
Qed.

(** X13. No key that is empty or has a dot in it is ever looked up:
    taking the entry under such a key out of any mapping of the heap
    changes nothing about what any path resolves to. *)
Theorem traverse_cannot_address (h : heap) root p po d k path_string :
  h !! p = Some po → mapping_data po = Some d →
  k = EmptyString ∨ has_dot k = true →
  (traverse root path_string (<[p := with_data po (without k d)]> h)).1
  = (traverse root path_string h).1.
Proof.
  intros Hp Hd Hk. unfold traverse.
  set (h' := <[p := with_data po (without k d)]> h).
  assert (Forall (λ w, w ≠ k)
            (filter (λ w, w ≠ EmptyString) (split_dots path_string))) as Hsegs.
  { apply Forall_forall. intros w [Hw Hin]%list_elem_of_filter.
    pose proof (split_dots_no_dot path_string) as Hdots.
    rewrite Forall_forall in Hdots. specialize (Hdots w Hin).
    destruct Hk as [->| Hk]; [done|]. congruence. }
  generalize root.
  induction Hsegs as [|w ws Hw _ IH]; intros a; [done|].
  rewrite !reduce_subscript_cons.
  assert ((subscript a w h').1 = (subscript a w h).1) as ->.
  { destruct (decide (a = p)) as [->|Hne].
    - rewrite (subscript_run h p po d w Hp Hd).
      rewrite (subscript_run h' p _ (without k d) w
                 (lookup_insert_self h p po _ Hp) (with_data_data po d _ Hd)).
      rewrite getitem_without by done. by destruct (getitem d w).
    - unfold subscript, bind, get_obj, h'.
      rewrite list_lookup_insert_ne by done.
      destruct (h !! a) as [[d0|[]|t0]|]; try done; by destruct (getitem _ w). }
  destruct (subscript a w h).1; [apply IH|done].
Qed.

Lemma traverse_cannot_address_witness :
  (traverse 0 "work..a.b"
     (<[1 := with_data
               (CategoryObj (mkCategory (Some 0) "work" "Work" "" [("a.b", 2)]))
               (without "a.b" [("a.b", 2)])]>
        [ RootObj [("work", 1)];
          CategoryObj (mkCategory (Some 0) "work" "Work" "" [("a.b", 2)]);
          CategoryObj (mkCategory (Some 1) "a.b" "A" "" []) ])).1
  = (traverse 0 "work..a.b"
       [ RootObj [("work", 1)];
         CategoryObj (mkCategory (Some 0) "work" "Work" "" [("a.b", 2)]);
         CategoryObj (mkCategory (Some 1) "a.b" "A" "" []) ]).1.
Proof.
  apply (traverse_cannot_address
           [ RootObj [("work", 1)];
             CategoryObj (mkCategory (Some 0) "work" "Work" "" [("a.b", 2)]);
             CategoryObj (mkCategory (Some 1) "a.b" "A" "" []) ]
           0 1 (CategoryObj (mkCategory (Some 0) "work" "Work" "" [("a.b", 2)]))
           [("a.b", 2)] "a.b" "work..a.b").
  - reflexivity.
  - reflexivity.
  - right. reflexivity.
Defined.

(** A category stored under ["a.b"] is there, and no path leads to it. *)
Example dotted_id_unreachable :
  add_category 1 "A" "" (Some "a.b") Scenario.start
  = (Ok 2,
     [ RootObj [("work", 1)];
       CategoryObj (mkCategory (Some 0) "work" "Work" "" [("a.b", 2)]);
       CategoryObj (mkCategory (Some 1) "a.b" "A" "" []) ])
  ∧ (traverse 0 "work.a.b"
       [ RootObj [("work", 1)];
         CategoryObj (mkCategory (Some 0) "work" "Work" "" [("a.b", 2)]);
         CategoryObj (mkCategory (Some 1) "a.b" "A" "" []) ]).1
    = Raise (KeyError "a").
Proof. vm_compute. done. Qed.

End Paths.

Section PathSteps.
Import Models Tracker Trees Frames Commands.

Lemma split_dots_one k : has_dot k = false → split_dots k = [k].
Proof.
  induction k as [|c k IH]; [done|]. simpl.
  intros [-> Hk]%orb_false_iff. by rewrite (IH Hk).
Qed.

(** X14. Extending a path by one more key (not empty, without a dot)
    looks that key up in the object the path leads to: the child under the
    key, a [KeyError] naming the key if there is none, a [TypeError] if the
    object is a task. *)
Theorem traverse_last_segment (h : heap) root p k a :
  traverse root p h = (Ok a, h) →
  k ≠ EmptyString → has_dot k = false →
  traverse root (p +:+ "." +:+ k) h = subscript a k h
  ∧ subscript a k h
    = match h !! a with
      | Some (TaskObj _) =>
          (Raise (TypeError "'Task' object is not subscriptable"), h)
      | Some o =>
          match getitem (default [] (mapping_data o)) k with
          | Some v => (Ok v, h)
          | None => (Raise (KeyError k), h)
          end
      | None => (Raise (AttributeError "no such object"), h)
      end.
Proof.
  intros Hp Hk Hdot. split.
  - unfold traverse in *.
    rewrite split_dots_app, filter_app, reduce_subscript_app. unfold bind.
    rewrite Hp, (split_dots_one k Hdot), filter_cons_True by done.
    rewrite filter_nil. simpl. unfold bind.
    rewrite (subscript_heap h a k). by destruct (subscript a k h).1.
  - unfold subscript, bind, get_obj.
    destruct (h !! a) as [[d|[]|t]|]; try done; simpl;
      by destruct (getitem _ k).
Qed.

Lemma traverse_last_segment_witness :
  traverse 0 ("work.projects" +:+ "." +:+ "design") Scenario.tree
  = subscript 2 "design" Scenario.tree
  ∧ subscript 2 "design" Scenario.tree = (Ok 3, Scenario.tree).
Proof.
  apply (traverse_last_segment Scenario.tree 0 "work.projects" "design" 2).
  - vm_compute. reflexivity.
  - discriminate.
  - reflexivity.
Defined.

End PathSteps.

(** * The commands *)

Section AddCommands.
Import Slugify Models Tracker Trees Frames Commands.

Lemma or_default_empty id : or_default EmptyString id = id.
Proof. done. Qed.

Lemma or_default_typed new_id id : new_id ≠ EmptyString → or_default new_id id = new_id.
Proof. intros H. unfold or_default. by destruct (String.eqb_spec new_id EmptyString). Qed.

(** X15. [addcat] at the root never raises: the new category goes into
    the root mapping by a plain item assignment.  A typed id that a
    top-level category already has is not refused; that entry now refers to
    the new category, at the place of the old one, and the keys are as
    before. *)
Theorem do_addcat_root_replaces (h : heap) root d arg title new_id description :
  h !! root = Some (RootObj d) →
  only_dots arg = true →
  let id := or_default new_id (slugify_unique title (keys d)) in
  do_addcat root arg title new_id description h
  = (Ok (length h),
     <[root := RootObj (setitem d id (length h))]>
       (h ++ [CategoryObj (mkCategory (Some root) id title description [])]))
  ∧ (new_id ≠ EmptyString → new_id ∈ keys d →
     keys (setitem d id (length h)) = keys d
     ∧ getitem (setitem d id (length h)) new_id = Some (length h)).
Proof.
  intros H Hdots id. split.
  - unfold do_addcat, bind at 1. rewrite (traverse_only_dots h root arg Hdots).
    unfold bind at 1, mapping_keys, bind at 1, get_obj. rewrite H.
    cbn [ret]. rewrite bool_decide_eq_true_2 by done. fold id.
    unfold Category_init, alloc, bind, mapping_setitem, bind, get_obj.
    by rewrite (lookup_alloc_old h _ root _ H).
  - intros Hne Hin. unfold id. rewrite (or_default_typed _ _ Hne).
    split; [by apply keys_setitem_present|].
    by rewrite getitem_setitem, String.eqb_refl.
Qed.

Lemma do_addcat_root_replaces_witness :
  do_addcat 0 "" "Other work" "work" "" Scenario.tree
  = (Ok 4,
     [ RootObj [("work", 4)];
       CategoryObj (mkCategory (Some 0) "work" "Work" "" [("projects", 2)]);
       CategoryObj (mkCategory (Some 1) "projects" "Projects" "" [("design", 3)]);
       TaskObj (mkTask (Some 2) "design" "Design" "" (Some 90%Z));
       CategoryObj (mkCategory (Some 0) "work" "Other work" "" []) ])
  ∧ ("work" ≠ EmptyString → "work" ∈ keys [("work", 1)] →
     keys (setitem [("work", 1)] "work" 4) = keys [("work", 1)]
     ∧ getitem (setitem [("work", 1)] "work" 4) "work" = Some 4).
Proof.
  apply (do_addcat_root_replaces Scenario.tree 0 [("work", 1)] "" "Other work"
           "work" "").
  - reflexivity.
  - reflexivity.
Defined.

(** X16. [addcat] below the root goes through [add_category] with an
    explicit id.  With no id typed, the id is the slug made unique among
    the keys and the command cannot fail; a typed id is taken as it is, and
    raises the [KeyError] if the parent has it, leaving the heap alone. *)
Theorem do_addcat_in_category (h : heap) root arg parent c title new_id
    description :
  traverse root arg h = (Ok parent, h) →
  parent ≠ root →
  h !! parent = Some (CategoryObj c) →
  let id := or_default new_id (slugify_unique title (keys (cat_data c))) in
  do_addcat root arg title new_id description h
  = (if contains (cat_data c) id then (Raise (KeyError_duplicate id), h)
     else (Ok (length h),
           after_add h parent c id
             (CategoryObj (mkCategory (Some parent) id title description []))))
  ∧ (new_id = EmptyString → contains (cat_data c) id = false).
Proof.
  intros Htr Hne H id. split.
  - unfold do_addcat, bind at 1. rewrite Htr.
    unfold bind at 1, mapping_keys, bind at 1, get_obj. rewrite H.
    cbn [ret]. rewrite bool_decide_eq_false_2 by done. fold id.
    by rewrite (add_category_run h parent c).
  - intros ->. unfold id. rewrite or_default_empty.
    apply contains_false, slugify_unique_fresh_key.
Qed.

Lemma do_addcat_in_category_witness :
  do_addcat 0 "work" "Projects" "" "" Scenario.tree
  = (Ok 4,
     [ RootObj [("work", 1)];
       CategoryObj (mkCategory (Some 0) "work" "Work" ""
                      [("projects", 2); ("projects-2", 4)]);
       CategoryObj (mkCategory (Some 1) "projects" "Projects" "" [("design", 3)]);
       TaskObj (mkTask (Some 2) "design" "Design" "" (Some 90%Z));
       CategoryObj (mkCategory (Some 1) "projects-2" "Projects" "" []) ])
  ∧ (EmptyString = EmptyString →
     contains [("projects", 2)] "projects-2" = false).
Proof.
  apply (do_addcat_in_category Scenario.tree 0 "work" 1
           (mkCategory (Some 0) "work" "Work" "" [("projects", 2)])
           "Projects" "" "").
  - vm_compute. reflexivity.
  - discriminate.
  - reflexivity.
Defined.

Section WithInt.

Variable py_int : string → result Z.

Lemma read_mins_run (h : heap) mins :
  read_mins py_int mins h
  = (if String.eqb mins EmptyString then Ok None
     else match py_int mins with Ok z => Ok (Some z) | Raise e => Raise e end,
     h).
Proof.
  unfold read_mins. destruct (String.eqb mins EmptyString); [done|].
  unfold bind, lift_result. by destruct (py_int mins).
Qed.

(** X17. [addtask] on a category.  What [int] raises on the text typed
    for the minutes is raised before anything is added.  Otherwise the
    task gets the integer read, or an unset duration for an empty text;
    the only other failure is the [KeyError] for a typed id the parent
    already has, so the duration check of [Task] never fires. *)
Theorem do_addtask_in_category (h : heap) root arg parent c title new_id
    description mins :
  traverse root arg h = (Ok parent, h) →
  h !! parent = Some (CategoryObj c) →
  let id := or_default new_id (slugify_unique title (keys (cat_data c))) in
  do_addtask py_int root arg title new_id description mins h
  = match (if String.eqb mins EmptyString then Ok None
           else match py_int mins with
                | Ok z => Ok (Some z)
                | Raise e => Raise e
                end) with
    | Raise e => (Raise e, h)
    | Ok m =>
        if contains (cat_data c) id then (Raise (KeyError_duplicate id), h)
        else (Ok (length h),
              after_add h parent c id
                (TaskObj (mkTask (Some parent) id title description m)))
    end.
Proof.
  intros Htr H id. unfold do_addtask, bind at 1. rewrite Htr.
  unfold bind at 1, get_obj. rewrite H. fold id.
  unfold bind at 1. rewrite read_mins_run.
  destruct (String.eqb mins EmptyString).
  - by rewrite (add_task_run h parent c).
  - destruct (py_int mins) as [z|e]; [|done].
    by rewrite (add_task_run h parent c).
Qed.

End WithInt.

Lemma do_addtask_in_category_witness :
  do_addtask (λ _, Ok 45%Z) 0 "work" "Review" "" "" "45" Scenario.tree
  = (Ok 4,
     [ RootObj [("work", 1)];
       CategoryObj (mkCategory (Some 0) "work" "Work" ""
                      [("projects", 2); ("review", 4)]);
       CategoryObj (mkCategory (Some 1) "projects" "Projects" "" [("design", 3)]);
       TaskObj (mkTask (Some 2) "design" "Design" "" (Some 90%Z));
       TaskObj (mkTask (Some 1) "review" "Review" "" (Some 45%Z)) ]).
Proof.
  apply (do_addtask_in_category (λ _, Ok 45%Z) Scenario.tree 0 "work" 1
           (mkCategory (Some 0) "work" "Work" "" [("projects", 2)])
           "Review" "" "" "45").
  - vm_compute. reflexivity.
  - reflexivity.
Defined.

End AddCommands.

Section EditCommand.
Import Slugify Models Tracker Trees Frames Commands.

Variable py_int : string → result Z.

Lemma set_title_task (h : heap) obj t title :
  h !! obj = Some (TaskObj t) →
  set_title obj title h
  = (Ok tt, <[obj := TaskObj (mkTask (task_parent t) (task_id t) title
                                (task_description t) (task_mins t))]> h).
Proof. intros H. unfold set_title, bind, get_obj. by rewrite H. Qed.

Lemma set_description_task (h : heap) obj t description :
  h !! obj = Some (TaskObj t) →
  set_description obj description h
  = (Ok tt, <[obj := TaskObj (mkTask (task_parent t) (task_id t) (task_title t)
                                description (task_mins t))]> h).
Proof. intros H. unfold set_description, bind, get_obj. by rewrite H. Qed.

Lemma set_mins_task (h : heap) obj t mins :
  h !! obj = Some (TaskObj t) →
  set_mins obj mins h
  = (Ok tt, <[obj := TaskObj (mkTask (task_parent t) (task_id t) (task_title t)
                                (task_description t) mins)]> h).
Proof. intros H. unfold set_mins, bind, get_obj. by rewrite H. Qed.

Lemma set_title_category (h : heap) obj c title :
  h !! obj = Some (CategoryObj c) →
  set_title obj title h
  = (Ok tt, <[obj := CategoryObj (mkCategory (cat_parent c) (cat_id c) title
                                    (cat_description c) (cat_data c))]> h).
Proof. intros H. unfold set_title, bind, get_obj. by rewrite H. Qed.

Lemma set_description_category (h : heap) obj c description :
  h !! obj = Some (CategoryObj c) →
  set_description obj description h
  = (Ok tt, <[obj := CategoryObj (mkCategory (cat_parent c) (cat_id c)
                                    (cat_title c) description (cat_data c))]> h).
Proof. intros H. unfold set_description, bind, get_obj. by rewrite H. Qed.

(** The steps of [do_edit] once the path has led to an object that is not
    the root. *)
Lemma do_edit_steps (h : heap) root arg obj title description mins :
  traverse root arg h = (Ok obj, h) → obj ≠ root →
  do_edit py_int root arg title description mins h
  = bind (set_title obj title)
      (λ _, bind (set_description obj description)
              (λ _, bind (get_obj obj)
                      (λ o, match o with
                            | TaskObj _ =>
                                bind (read_mins py_int mins) (set_mins obj)
                            | _ => ret tt
                            end))) h.
Proof.
  intros Htr Hne. unfold do_edit, bind at 1. rewrite Htr.
  by rewrite bool_decide_eq_false_2 by done.
Qed.

Lemma do_edit_category (h : heap) root arg obj c title description mins :
  traverse root arg h = (Ok obj, h) → obj ≠ root →
  h !! obj = Some (CategoryObj c) →
  do_edit py_int root arg title description mins h
  = (Ok tt, <[obj := CategoryObj (mkCategory (cat_parent c) (cat_id c) title
                                    description (cat_data c))]> h).
Proof.
  intros Htr Hne H. rewrite (do_edit_steps h root arg obj) by done.
  unfold bind at 1. rewrite (set_title_category h obj c title H).
  unfold bind at 1.
  erewrite set_description_category by by eapply lookup_insert_self.
  unfold bind, get_obj. rewrite list_insert_insert_eq.
  by erewrite lookup_insert_self by done.
Qed.

Lemma do_edit_task (h : heap) root arg obj t title description mins :
  traverse root arg h = (Ok obj, h) → obj ≠ root →
  h !! obj = Some (TaskObj t) →
  do_edit py_int root arg title description mins h
  = match (if String.eqb mins EmptyString then Ok None
           else match py_int mins with
                | Ok z => Ok (Some z)
                | Raise e => Raise e
                end) with
    | Ok m =>
        (Ok tt, <[obj := TaskObj (mkTask (task_parent t) (task_id t) title
                                    description m)]> h)
    | Raise e =>
        (Raise e, <[obj := TaskObj (mkTask (task_parent t) (task_id t) title
                                      description (task_mins t))]> h)
    end.
Proof.
  intros Htr Hne H. rewrite (do_edit_steps h root arg obj) by done.
  unfold bind at 1. rewrite (set_title_task h obj t title H).
  unfold bind at 1.
  erewrite set_description_task by by eapply lookup_insert_self.
  rewrite list_insert_insert_eq. cbn [task_parent task_id task_title task_mins].
  unfold bind at 1, get_obj.
  erewrite lookup_insert_self by done.
  unfold bind. rewrite read_mins_run.
  destruct (if String.eqb mins EmptyString then _ else _) as [m|e]; [|done].
  erewrite set_mins_task by by eapply lookup_insert_self.
  by rewrite list_insert_insert_eq.
Qed.

(** X18. [edit] on a category replaces its title and description and
    nothing else; the text for the minutes is not read.  On a task it
    replaces title, description and the duration (unset for an empty
    text).  If [int] raises on the text typed for the minutes, the command
    fails with that exception after the title and the description have
    been replaced, the duration staying as it was. *)
Theorem do_edit_replaces (h : heap) root arg obj title description mins :
  traverse root arg h = (Ok obj, h) → obj ≠ root →
  (∀ c, h !! obj = Some (CategoryObj c) →
     do_edit py_int root arg title description mins h
     = (Ok tt, <[obj := CategoryObj (mkCategory (cat_parent c) (cat_id c) title
                                       description (cat_data c))]> h))
  ∧ (∀ t, h !! obj = Some (TaskObj t) →
     do_edit py_int root arg title description mins h
     = match (if String.eqb mins EmptyString then Ok None
              else match py_int mins with
                   | Ok z => Ok (Some z)
                   | Raise e => Raise e
                   end) with
       | Ok m =>
           (Ok tt, <[obj := TaskObj (mkTask (task_parent t) (task_id t) title
                                       description m)]> h)
       | Raise e =>
           (Raise e, <[obj := TaskObj (mkTask (task_parent t) (task_id t) title
                                         description (task_mins t))]> h)
       end).
Proof.
  intros Htr Hne. split.
  - intros c. by apply do_edit_category.
  - intros t. by apply do_edit_task.
Qed.

Lemma same_structure_refl (h : heap) : same_structure h h.
Proof. by intros l. Qed.

Lemma same_structure_insert (h : heap) l o o' :
  h !! l = Some o → structure o' = structure o →
  same_structure h (<[l := o']> h).
Proof.
  intros H Hs l'. destruct (decide (l' = l)) as [->|Hne].
  - rewrite (lookup_insert_self h l o o' H), H. simpl. by rewrite Hs.
  - by rewrite list_lookup_insert_ne by done.
Qed.

Lemma subscript_same_structure (h h' : heap) a b :
  same_structure h h' → (subscript a b h').1 = (subscript a b h).1.
Proof.
  intros Hs. specialize (Hs a). unfold subscript, bind, get_obj.
  destruct (h !! a) as [o|], (h' !! a) as [o'|]; simpl in Hs; try done.
  injection Hs as Hp Hi Hd.
  destruct o as [d|[]|t], o' as [d'|[]|t']; simpl in *; simplify_eq; try done;
    by destruct (getitem _ b).
Qed.

Lemma reduce_subscript_same_structure (h h' : heap) path :
  same_structure h h' →
  ∀ a, (reduce_subscript path a h').1 = (reduce_subscript path a h).1.
Proof.
  intros Hs. induction path as [|b path IH]; intros a; [done|].
  rewrite !reduce_subscript_cons, (subscript_same_structure h h' a b Hs).
  destruct (subscript a b h).1; [apply IH|done].
Qed.

(** What [do_edit] can have done to the heap. *)
Lemma do_edit_heap (h h' : heap) root arg title description mins r :
  do_edit py_int root arg title description mins h = (r, h') →
  h' = h ∨ ∃ l o o', h !! l = Some o ∧ structure o' = structure o
                     ∧ h' = <[l := o']> h.
Proof.
  intros Hedit.
  destruct (traverse root arg h) as [[obj|e] h0] eqn:Htr.
  2:{ unfold do_edit, bind in Hedit. rewrite Htr in Hedit.
      unfold traverse in Htr. rewrite reduce_subscript_heap in Htr.
      left. congruence. }
  assert (h0 = h) as ->.
  { unfold traverse in Htr. rewrite reduce_subscript_heap in Htr. congruence. }
  destruct (decide (obj = root)) as [->|Hne].
  { unfold do_edit, bind in Hedit. rewrite Htr in Hedit.
    rewrite bool_decide_eq_true_2 in Hedit by done. left.
    unfold raise in Hedit. congruence. }
  destruct (h !! obj) as [[d|c|t]|] eqn:Hobj.
  - rewrite (do_edit_steps h root arg obj) in Hedit by done.
    assert (set_title obj title h = (Ok tt, h)) as Ht.
    { unfold set_title, bind, get_obj. by rewrite Hobj. }
    assert (set_description obj description h = (Ok tt, h)) as Hd.
    { unfold set_description, bind, get_obj. by rewrite Hobj. }
    unfold bind at 1 in Hedit. rewrite Ht in Hedit.
    unfold bind at 1 in Hedit. rewrite Hd in Hedit.
    unfold bind, get_obj in Hedit. rewrite Hobj in Hedit.
    left. unfold ret in Hedit. congruence.
  - rewrite (do_edit_category h root arg obj c) in Hedit by done.
    injection Hedit as _ <-. right. exists obj, (CategoryObj c). eexists.
    split; [done|]. split; [|reflexivity]. done.
  - rewrite (do_edit_task h root arg obj t) in Hedit by done.
    right. exists obj, (TaskObj t).
    destruct (if String.eqb mins EmptyString then _ else _) as [m|e];
      injection Hedit as _ <-; eexists;
      (split; [done|]); (split; [|reflexivity]); done.
  - rewrite (do_edit_steps h root arg obj) in Hedit by done.
    assert (set_title obj title h = (Raise (AttributeError "no such object"), h))
      as Ht.
    { unfold set_title, bind, get_obj. by rewrite Hobj. }
    unfold bind at 1 in Hedit. rewrite Ht in Hedit. left. congruence.
Qed.

(** X19. Whatever [edit] is given and however it ends, afterwards every
    object has the parent, the id and the children it had before, no
    object has been added or removed, and every path resolves just as
    before. *)
Theorem do_edit_keeps_structure (h h' : heap) root arg title description mins r :
  do_edit py_int root arg title description mins h = (r, h') →
  same_structure h h'
  ∧ length h' = length h
  ∧ ∀ a p, (traverse a p h').1 = (traverse a p h).1.
Proof.
  intros Hedit.
  assert (same_structure h h' ∧ length h' = length h) as [Hs Hlen].
  { destruct (do_edit_heap h h' root arg title description mins r Hedit)
      as [->|(l & o & o' & Hl & Hso & ->)].
    - split; [apply same_structure_refl|done].
    - split; [by eapply same_structure_insert|apply length_insert]. }
  split_and!; [done..|].
  intros a p. unfold traverse. by apply reduce_subscript_same_structure.
Qed.

End EditCommand.

Section EditWitnesses.
Import Slugify Models Tracker Trees Frames Commands.

Lemma do_edit_replaces_witness :
  (∀ c, Scenario.tree !! 3 = Some (CategoryObj c) →
     do_edit int45 0 "work.projects.design" "Draft" "first" "soon" Scenario.tree
     = (Ok tt, <[3 := CategoryObj (mkCategory (cat_parent c) (cat_id c) "Draft"
                                     "first" (cat_data c))]> Scenario.tree))
  ∧ (∀ t, Scenario.tree !! 3 = Some (TaskObj t) →
     do_edit int45 0 "work.projects.design" "Draft" "first" "soon" Scenario.tree
     = (Raise (ValueError "invalid literal for int() with base 10"),
        <[3 := TaskObj (mkTask (task_parent t) (task_id t) "Draft" "first"
                          (task_mins t))]> Scenario.tree)).
Proof.
  apply (do_edit_replaces int45 Scenario.tree 0 "work.projects.design" 3
           "Draft" "first" "soon").
  - vm_compute. reflexivity.
  - discriminate.
Defined.

(** The failed edit has left its mark on the task. *)
Example do_edit_partial :
  do_edit int45 0 "work.projects.design" "Draft" "first" "soon" Scenario.tree
  = (Raise (ValueError "invalid literal for int() with base 10"),
     [ RootObj [("work", 1)];
       CategoryObj (mkCategory (Some 0) "work" "Work" "" [("projects", 2)]);
       CategoryObj (mkCategory (Some 1) "projects" "Projects" "" [("design", 3)]);
       TaskObj (mkTask (Some 2) "design" "Draft" "first" (Some 90%Z)) ]).
Proof. vm_compute. reflexivity. Qed.

Lemma do_edit_keeps_structure_witness :
  let h' := [ RootObj [("work", 1)];
              CategoryObj (mkCategory (Some 0) "work" "Work" "" [("projects", 2)]);
              CategoryObj (mkCategory (Some 1) "projects" "Projects" ""
                             [("design", 3)]);
              TaskObj (mkTask (Some 2) "design" "Draft" "first" (Some 45%Z)) ] in
  same_structure Scenario.tree h'
  ∧ length h' = length Scenario.tree
  ∧ ∀ a p, (traverse a p h').1 = (traverse a p Scenario.tree).1.
Proof.
  apply (do_edit_keeps_structure int45 Scenario.tree _ 0 "work.projects.design"
           "Draft" "first" "45" (Ok tt)).
  vm_compute. reflexivity.
Defined.

End EditWitnesses.

Section RootAndSubtrees.
Import Slugify Models Tracker Trees Frames Commands.

Variable py_int : string → result Z.

(** X20. A path of nothing but dots, the empty one included, leads to the
    root, and there [rm], [rrm] and [edit] refuse with their own
    exceptions and [addtask] refuses because the root is not a category;
    none of them changes the heap. *)
Theorem commands_refuse_root (h : heap) root d arg recurse title new_id
    description mins :
  only_dots arg = true →
  h !! root = Some (RootObj d) →
  do_rm root arg recurse h = (Raise (ValueError "Cannot delete root"), h)
  ∧ do_rrm root arg h = (Raise (ValueError "Cannot delete root"), h)
  ∧ do_edit py_int root arg title description mins h
    = (Raise Exception_edit_root, h)
  ∧ do_addtask py_int root arg title new_id description mins h
    = (Raise ValueError_not_category, h).
Proof.
  intros Hdots Hroot.
  pose proof (traverse_only_dots h root arg Hdots) as Htr.
  assert (∀ r, do_rm root arg r h = (Raise (ValueError "Cannot delete root"), h))
    as Hrm.
  { intros r. unfold do_rm, bind. rewrite Htr.
    by rewrite bool_decide_eq_true_2 by done. }
  split_and!; [apply Hrm|apply Hrm|..].
  - unfold do_edit, bind. rewrite Htr. by rewrite bool_decide_eq_true_2 by done.
  - unfold do_addtask, bind at 1. rewrite Htr.
    unfold bind, get_obj. by rewrite Hroot.
Qed.

Lemma Category_delete_ok (h : heap) self c parent po d recurse :
  h !! self = Some (CategoryObj c) →
  cat_parent c = Some parent →
  h !! parent = Some po → mapping_data po = Some d →
  NoDup (keys d) → cat_id c ∈ keys d →
  recurse = true ∨ cat_data c = [] →
  Category_delete self recurse h
  = (Ok tt, <[parent := with_data po (without (cat_id c) d)]> h).
Proof.
  intros H Hparent Hpo Hd Hnodup Hk Hok.
  unfold Category_delete, bind. rewrite (get_category_run h self c H), Hparent.
  assert (negb (bool_decide (keys (cat_data c) = [])) && negb recurse = false)
    as ->.
  { destruct Hok as [->| ->]; [apply andb_false_r|done]. }
  by apply parent_delitem_run.
Qed.

(** X21. [rrm] on the path of a category that its parent holds under its
    id deletes it whatever it contains: the key goes from the parent's
    mapping and that is the only change, so the category and everything
    below it stay in the heap as they were, out of reach of the parent. *)
Theorem do_rrm_removes_subtree (h : heap) root arg self c parent po d :
  traverse root arg h = (Ok self, h) → self ≠ root →
  h !! self = Some (CategoryObj c) →
  cat_parent c = Some parent →
  h !! parent = Some po → mapping_data po = Some d →
  NoDup (keys d) → cat_id c ∈ keys d →
  let h' := <[parent := with_data po (without (cat_id c) d)]> h in
  do_rrm root arg h = (Ok tt, h')
  ∧ (∀ l, l ≠ parent → h' !! l = h !! l)
  ∧ data_of h' parent = Some (without (cat_id c) d).
Proof.
  intros Htr Hne H Hparent Hpo Hd Hnodup Hk h'. split_and!.
  - unfold do_rrm, do_rm, bind. rewrite Htr.
    rewrite bool_decide_eq_false_2 by done.
    unfold call_delete, bind, get_obj. rewrite H.
    rewrite bool_decide_eq_true_2 by (apply list_elem_of_singleton; done).
    apply (Category_delete_ok h self c parent po d true); auto.
  - intros l Hl. unfold h'. by rewrite list_lookup_insert_ne.
  - unfold data_of, h'. rewrite (lookup_insert_self h parent po _ Hpo). simpl.
    by apply with_data_data with d.
Qed.

End RootAndSubtrees.

Section RootAndSubtreesWitnesses.
Import Slugify Models Tracker Trees Frames Commands.

Lemma commands_refuse_root_witness :
  do_rm 0 ".." false Scenario.tree
  = (Raise (ValueError "Cannot delete root"), Scenario.tree)
  ∧ do_rrm 0 ".." Scenario.tree
    = (Raise (ValueError "Cannot delete root"), Scenario.tree)
  ∧ do_edit (λ _, Ok 0%Z) 0 ".." "t" "d" "1" Scenario.tree
    = (Raise Exception_edit_root, Scenario.tree)
  ∧ do_addtask (λ _, Ok 0%Z) 0 ".." "t" "" "d" "1" Scenario.tree
    = (Raise ValueError_not_category, Scenario.tree).
Proof.
  apply (commands_refuse_root (λ _, Ok 0%Z) Scenario.tree 0 [("work", 1)] ".."
           false "t" "" "d" "1").
  - reflexivity.
  - reflexivity.
Defined.

Lemma do_rrm_removes_subtree_witness :
  let h' := [ RootObj [("work", 1)];
              CategoryObj (mkCategory (Some 0) "work" "Work" "" []);
              CategoryObj (mkCategory (Some 1) "projects" "Projects" ""
                             [("design", 3)]);
              TaskObj (mkTask (Some 2) "design" "Design" "" (Some 90%Z)) ] in
  do_rrm 0 "work.projects" Scenario.tree = (Ok tt, h')
  ∧ (∀ l, l ≠ 1 → h' !! l = Scenario.tree !! l)
  ∧ data_of h' 1 = Some (without "projects" [("projects", 2)]).
Proof.
  apply (do_rrm_removes_subtree Scenario.tree 0 "work.projects" 2
           (mkCategory (Some 1) "projects" "Projects" "" [("design", 3)]) 1
           (CategoryObj (mkCategory (Some 0) "work" "Work" "" [("projects", 2)]))
           [("projects", 2)]).
  - vm_compute. reflexivity.
  - discriminate.
  - reflexivity.
  - reflexivity.
  - reflexivity.
  - reflexivity.
  - apply NoDup_singleton.
  - apply list_elem_of_singleton. reflexivity.
Defined.

End RootAndSubtreesWitnesses.

(** * The invariant of the heap *)

Section HeapInvariant.
Import Slugify Models Tracker Trees Frames.

(** Replacing an object by one with the same id and parent keeps every
    ownership. *)
Lemma owns_insert (h : heap) l o o' l1 kv :
  h !! l = Some o → obj_id o' = obj_id o → obj_parent o' = obj_parent o →
  owns h l1 kv → owns (<[l := o']> h) l1 kv.
Proof.
  intros H Hid Hparent (o1 & Ho1 & Hid1 & Hparent1). unfold owns.
  destruct (decide (kv.2 = l)) as [Heq|Hne].
  - exists o'. rewrite Heq in *. rewrite (lookup_insert_self h l o o' H).
    assert (o1 = o) as -> by congruence. split_and!; congruence.
  - exists o1. by rewrite list_lookup_insert_ne.
Qed.

Lemma owns_alloc (h : heap) o l1 kv : owns h l1 kv → owns (h ++ [o]) l1 kv.
Proof.
  intros (o1 & Ho1 & Hid1 & Hparent1). exists o1.
  by rewrite (lookup_alloc_old h o _ o1 Ho1).
Qed.

Lemma heap_wf_insert (h : heap) l o o' :
  h !! l = Some o → obj_id o' = obj_id o → obj_parent o' = obj_parent o →
  (∀ c', o' = CategoryObj c' →
         NoDup (keys (cat_data c')) ∧ Forall (owns h l) (cat_data c')) →
  heap_wf h → heap_wf (<[l := o']> h).
Proof.
  intros H Hid Hparent Hnew Hwf l1 c1 Hl1.
  destruct (decide (l1 = l)) as [->|Hne].
  - rewrite (lookup_insert_self h l o o' H) in Hl1. injection Hl1 as ->.
    destruct (Hnew c1 eq_refl) as [Hnodup Howns]. split; [done|].
    eapply Forall_impl; [done|]. intros kv. by apply owns_insert with o.
  - rewrite list_lookup_insert_ne in Hl1 by done.
    destruct (Hwf l1 c1 Hl1) as [Hnodup Howns]. split; [done|].
    eapply Forall_impl; [done|]. intros kv. by apply owns_insert with o.
Qed.

Lemma heap_wf_alloc (h : heap) o :
  (∀ c, o = CategoryObj c → cat_data c = []) →
  heap_wf h → heap_wf (h ++ [o]).
Proof.
  intros Ho Hwf l c Hl.
  destruct (decide (l < length h)) as [Hlt|Hge].
  - rewrite lookup_app_l in Hl by done.
    destruct (Hwf l c Hl) as [Hnodup Howns]. split; [done|].
    eapply Forall_impl; [done|]. intros kv. apply owns_alloc.
  - rewrite lookup_app_r in Hl by lia.
    destruct (l - length h) as [|n]; [|by destruct n].
    injection Hl as ->. unfold category_wf. rewrite (Ho c eq_refl).
    split; [apply NoDup_nil_2|apply Forall_nil_2].
Qed.

Lemma heap_wf_after_add (h : heap) self c k o :
  h !! self = Some (CategoryObj c) → k ∉ keys (cat_data c) →
  obj_id o = Some k → obj_parent o = Some self →
  (∀ c', o = CategoryObj c' → cat_data c' = []) →
  heap_wf h → heap_wf (after_add h self c k o).
Proof.
  intros H Hk Hid Hparent Hempty Hwf. unfold after_add.
  pose proof (heap_wf_alloc h o Hempty Hwf) as Hwf'.
  apply (heap_wf_insert _ self (CategoryObj c)); [by apply lookup_alloc_old|done..| |done].
  intros c' [= <-]. cbn [cat_data set_data]. rewrite setitem_fresh by done.
  destruct (Hwf self c H) as [Hnodup Howns]. split.
  - rewrite keys_app. apply NoDup_app. split_and!; [done| |apply NoDup_singleton].
    intros x Hx ->%list_elem_of_singleton. done.
  - apply Forall_app. split.
    + eapply Forall_impl; [done|]. intros kv. apply owns_alloc.
    + apply Forall_singleton. exists o. cbn [fst snd].
      by rewrite lookup_app_r, Nat.sub_diag by lia.
Qed.

End HeapInvariant.

Section HeapInvariantKept.
Import Slugify Models Tracker Trees Frames.

(** X22. [add_category] and [add_task], with or without an explicit id
    and however they end, keep the invariant of the heap: every category
    holds a dict whose items are children stored under their own id with
    their [__parent__] set to that category. *)
Theorem add_keeps_heap_wf (h : heap) self title description id mins :
  heap_wf h →
  heap_wf (add_category self title description id h).2
  ∧ heap_wf (add_task self title description id mins h).2.
Proof.
  intros Hwf.
  destruct (h !! self) as [[d|c|t]|] eqn:Hself.
  1,3,4: by (unfold add_category, add_task, resolve_id, bind, get_category, bind,
               get_obj; rewrite Hself).
  assert (∀ o, obj_id o = Some (resolved_id c title id) →
               obj_parent o = Some self →
               (∀ c', o = CategoryObj c' → cat_data c' = []) →
               match id with Some i => contains (cat_data c) i | None => false end
               = false →
               heap_wf (after_add h self c (resolved_id c title id) o)) as Hadd.
  { intros o Hid Hparent Hempty Hc. apply heap_wf_after_add; try done.
    destruct id as [i|]; simpl in *.
    - by apply contains_false.
    - apply slugify_unique_fresh_key. }
  split.
  - rewrite (add_category_run h self c) by done.
    destruct (match id with Some i => contains (cat_data c) i | None => false end)
      eqn:Hc; [done|].
    apply Hadd; [done..| |done]. by intros c' [= <-].
  - rewrite (add_task_run h self c) by done.
    destruct (match id with Some i => contains (cat_data c) i | None => false end)
      eqn:Hc; [done|].
    destruct (negb (is_None mins) && negb (isinstance_int mins)); [done|].
    by apply Hadd.
Qed.

Lemma keys_without_sub (d : list (string * nat)) k :
  NoDup (keys d) → NoDup (keys (without k d)).
Proof.
  unfold keys, without. induction d as [|[k' v'] d IH]; [done|].
  rewrite fmap_cons. intros [Hk' Hnodup]%NoDup_cons.
  rewrite filter_cons. case_decide; [|by apply IH].
  rewrite fmap_cons. apply NoDup_cons. split; [|by apply IH].
  intros ([k1 v1] & Heq & [_ Hin]%list_elem_of_filter)%list_elem_of_fmap.
  simpl in Heq. subst. apply Hk'. apply list_elem_of_fmap. by exists (k1, v1).
Qed.

Lemma heap_wf_parent_delitem (h : heap) parent k :
  heap_wf h → heap_wf (parent_delitem parent k h).2.
Proof.
  intros Hwf. unfold parent_delitem, bind, get_obj.
  destruct (h !! parent) as [[d|c|t]|] eqn:Hp; [| |done..].
  - destruct (delitem d k); [|done]. simpl.
    by apply (heap_wf_insert h parent (RootObj d)).
  - destruct (decide (k ∈ keys (cat_data c))) as [Hin|Hout].
    2:{ by rewrite delitem_missing. }
    destruct (Hwf parent c Hp) as [Hnodup Howns].
    rewrite delitem_without by done. simpl.
    apply (heap_wf_insert h parent (CategoryObj c)); [done..| |done].
    intros c' [= <-]. cbn [cat_data set_data]. split.
    + by apply keys_without_sub.
    + unfold without. apply Forall_forall.
      intros kv [_ Hkv]%list_elem_of_filter.
      rewrite Forall_forall in Howns. by apply Howns.
Qed.

(** X23. [Category.delete] and [Task.delete], on any object, with any
    flag and however they end, keep the invariant of the heap. *)
Theorem delete_keeps_heap_wf (h : heap) category task recurse :
  heap_wf h →
  heap_wf (Category_delete category recurse h).2
  ∧ heap_wf (Task_delete task h).2.
Proof.
  intros Hwf. split.
  - unfold Category_delete, bind, get_category, bind, get_obj.
    destruct (h !! category) as [[d|c|t]|]; try done. cbn [ret raise].
    destruct (cat_parent c) as [parent|]; [|done].
    destruct (negb _ && negb recurse); [done|].
    by apply heap_wf_parent_delitem.
  - unfold Task_delete, bind, get_task, bind, get_obj.
    destruct (h !! task) as [[d|c|t]|]; try done. cbn [ret raise].
    destruct (task_parent t) as [parent|]; [|done].
    by apply heap_wf_parent_delitem.
Qed.

End HeapInvariantKept.

Section HeapInvariantWitnesses.
Import Slugify Models Tracker Trees Frames.

Lemma scenario_tree_wf : heap_wf Scenario.tree.
Proof.
  intros l c Hl.
  destruct l as [|[|[|[|l]]]]; simpl in Hl; try discriminate;
    injection Hl as <-;
    (split; [apply NoDup_singleton|]);
    apply Forall_singleton; eexists; (split; [reflexivity|split; reflexivity]).
Qed.

Lemma add_keeps_heap_wf_witness :
  heap_wf (add_category 1 "Projects" "" None Scenario.tree).2
  ∧ heap_wf (add_task 1 "Projects" "" None (PyInt 5) Scenario.tree).2.
Proof.
  apply (add_keeps_heap_wf Scenario.tree 1 "Projects" "" None (PyInt 5)).
  exact scenario_tree_wf.
Defined.

Lemma delete_keeps_heap_wf_witness :
  heap_wf (Category_delete 2 true Scenario.tree).2
  ∧ heap_wf (Task_delete 3 Scenario.tree).2.
Proof.
  apply (delete_keeps_heap_wf Scenario.tree 2 3 true).
  exact scenario_tree_wf.
Defined.

End HeapInvariantWitnesses.
